(** * Geocoding matrices of PyGMTSAR ([SBAS_geocode.py])

    A shallow embedding of [pygmtsar/SBAS_geocode.py]: the two index matrices
    that map cells between radar (azimuth/range) and geographic (lat/lon)
    coordinates, and the two resampling operations that apply them.

    Conventions of the embedding.
    - a finite float64 is the rational it denotes ([Q]); an arithmetic
      operation on floats is the exact operation followed by the rounding to
      the nearest float64 ([round64]); grid values, which may be missing,
      are [fval] ([FNaN] or a rational).
    - [uint32] cells are integers in [Z] with the wrap-around modulo 2^32
      written out ([wrap32]).
    - a raised Python exception is the left injection of [result].
    - a dask array is the grid of its blocks; a block is an [ndarray]
      (a shape and the row-major data, what [reshape(-1)] returns).
    - the file system that [os.remove] and [to_netcdf] act on is threaded
      explicitly ([World]). *)

From Stdlib Require Import ZArith QArith Qround Qpower Qreduction Lia Lqa Bool.
From stdpp Require Import gmap strings list.

Local Open Scope Z_scope.

(** ** Exceptions and results *)

Inductive exn : Type :=
| AssertionError (msg : string)
| IndexError
| ValueError
| NameError (name : string).

Definition result (A : Type) : Type := (exn + A)%type.

Definition raise {A} (e : exn) : result A := inl e.

#[global] Instance result_ret : MRet result := fun A a => inr a.
#[global] Instance result_bind : MBind result := fun A B k m =>
  match m with
  | inl e => inl e
  | inr a => k a
  end.

(** [assert c, msg] followed by the rest of the body. *)
Definition assert_ {A} (c : bool) (msg : string) (k : result A) : result A :=
  if c then k else raise (AssertionError msg).

(** The Python [for] loop that appends one fallible result per element. *)
Fixpoint mapM_result {A B} (f : A -> result B) (l : list A) : result (list B) :=
  match l with
  | [] => mret []
  | a :: l' => b ← f a; bs ← mapM_result f l'; mret (b :: bs)
  end.

(** ** Machine integers *)

(** [np.uint32] arithmetic wraps modulo 2^32. *)
Definition wrap32 (z : Z) : Z := z mod 2 ^ 32.

(** Modelled from the spec: the class constant [self.noindex] is declared in
    a base class that is not part of this file; the spec fixes it as the
    maximum representable unsigned (32-bit) value. *)
Definition noindex : Z := 2 ^ 32 - 1.

(** ** Arrays *)

Record ndarray (A : Type) : Type := mk_ndarray {
  shape : nat * nat;
  data : list A
}.
Arguments mk_ndarray {A} _ _.
Arguments shape {A} _.
Arguments data {A} _.

(** [np.full(shape, v)] *)
Definition np_full {A} (sh : nat * nat) (v : A) : ndarray A :=
  mk_ndarray sh (replicate (sh.1 * sh.2)%nat v).

(** [a[i]] for an integer [i] on a 1-D array: negative indices count from the
    end, anything outside raises [IndexError]. *)
Definition np_getitem {A} (l : list A) (i : Z) : result A :=
  let n := Z.of_nat (length l) in
  let j := if i <? 0 then i + n else i in
  if (0 <=? j) && (j <? n) then
    match l !! Z.to_nat j with
    | Some a => mret a
    | None => raise IndexError
    end
  else raise IndexError.

(** [a[inds]] for an integer array [inds] (fancy indexing). *)
Definition np_take {A} (l : list A) (inds : list Z) : result (list A) :=
  mapM_result (np_getitem l) inds.

(** [a.min()] and [a.max()]: a zero-size array has no minimum. *)
Definition Qmin' (a b : Q) : Q := if Qle_bool a b then a else b.
Definition Qmax' (a b : Q) : Q := if Qle_bool a b then b else a.

Definition array_min (l : list Q) : result Q :=
  match l with
  | [] => raise ValueError
  | a :: l' => mret (foldr Qmin' a l')
  end.

Definition array_max (l : list Q) : result Q :=
  match l with
  | [] => raise ValueError
  | a :: l' => mret (foldr Qmax' a l')
  end.

(** [.round()]: to the nearest integer, ties to the even one. *)
Definition np_round (q : Q) : Z :=
  let f := Qfloor q in
  match ((q - inject_Z f) ?= (1 # 2))%Q with
  | Lt => f
  | Gt => f + 1
  | Eq => if Z.even f then f else f + 1
  end.

(** ** float64 arithmetic

    IEEE 754 rounds the exact result of an operation to the nearest number
    with a significand of 53 bits, ties to the even significand. The range
    of the exponent is not bounded here: no overflow to an infinity, no
    subnormal numbers. *)

Definition pow2 (k : Z) : Q := (2 ^ k)%Q.

(** The exponent [e] of a positive rational: [2^e <= a < 2^(e+1)]. *)
Definition ilog2 (a : Q) : Z :=
  let e0 := Z.log2 (Qnum a) - Z.log2 (Zpos (Qden a)) in
  if Qle_bool (pow2 e0) a then e0 else e0 - 1.

(** The nearest multiple of [2^(e-52)] to a positive rational. *)
Definition round_pos (a : Q) : Q :=
  let k := ilog2 a - 52 in
  (inject_Z (np_round (a / pow2 k)) * pow2 k)%Q.

Definition round64 (q : Q) : Q :=
  let q := Qred q in
  Qred match Qnum q with
       | 0 => 0%Q
       | Zpos _ => round_pos q
       | Zneg _ => (- round_pos (- q))%Q
       end.

(** [a - b] and [a + b] on float64. *)
Definition fsub (a b : Q) : Q := round64 (a - b).
Definition fadd (a b : Q) : Q := round64 (a + b).


(** [c.diff(dim)[0]]: the first difference of a coordinate. *)
Definition diff0 (l : list Q) : result Q :=
  match l with
  | a :: b :: _ => mret (fsub b a)
  | _ => raise IndexError
  end.

(** ** Data model *)

(** One cell of [trans_dat]: radar coordinates and the linear index of the
    cell in the geographic raster. *)
Record TransformPoint : Type := mk_point {
  azi : Q;
  rng : Q;
  idx : Z
}.

(** One row of [trans_blocks_extents]:
    columns 0..5 are block row, block column, azimuth min and max, range min
    and max. *)
Record BlockExtent : Type := mk_extent {
  blockRow : nat;
  blockCol : nat;
  azimuthMin : Q;
  azimuthMax : Q;
  rangeMin : Q;
  rangeMax : Q
}.

(** Chunks of a 2-D dask array: the block sizes along each axis; [None] for
    an array that is not chunked. *)
Definition chunks_t : Type := option (list nat * list nat).

(** The footprint [intf_grid]: its coordinates and its chunk partition. *)
Record RadarGrid : Type := mk_grid {
  grid_y : list Q;
  grid_x : list Q;
  grid_chunks : chunks_t
}.

(** What the methods read from [self]. *)
Record SBAS : Type := mk_sbas {
  trans_dat : list (list (ndarray TransformPoint));
  trans_blocks_extents : list BlockExtent;
  chunksize : nat;
  get_filenames : string -> string
}.

Definition block_at {A} (blocks : list (list A)) (iy ix : nat) : option A :=
  row ← blocks !! iy; row !! ix.

(** ** Storage *)

Inductive io_event : Type :=
| Removed (path : string)
| ToNetcdf (path : string) (var : string).

Record World : Type := mk_world {
  files : gset string;
  trace : list io_event
}.

Definition os_path_exists (path : string) (w : World) : bool :=
  bool_decide (path ∈ files w).

Definition os_remove (path : string) (w : World) : World :=
  mk_world (files w ∖ {[path]}) (trace w ++ [Removed path]).

(** [to_netcdf(filename, ..., compute=False)] opens the file for writing and
    hands back the delayed write. *)
Definition to_netcdf (path var : string) (w : World) : World :=
  mk_world (files w ∪ {[path]}) (trace w ++ [ToNetcdf path var]).

(** What a matrix builder returns: the lazy matrix itself, or the handler of
    the delayed write of that matrix to [path]. *)
Inductive build (M : Type) : Type :=
| Pending (m : M)
| Handler (path : string) (m : M).
Arguments Pending {M} _.
Arguments Handler {M} _ _.

Definition built {M} (b : build M) : M :=
  match b with
  | Pending m => m
  | Handler _ m => m
  end.

(** ** ra2ll: the matrix *)

(** [a / b] on float64: a division by zero gives an infinity or [nan], no
    number. *)
Definition float_div (a b : Q) : option Q :=
  if Qeq_bool b 0 then None else Some (round64 (a / b)).

(** [((coord - origin)/step).round()]: the row (column) of a radar
    coordinate on the footprint. *)
Definition trans_idx (coord origin step : Q) : option Z :=
  np_round <$> float_div (fsub coord origin) step.

(** [xr.where((i>=0)&(i<size), i.astype(np.uint32), self.noindex)]; an
    infinity or [nan] fails the test. *)
Definition index_or_noindex (size : nat) (i : option Z) : Z :=
  match i with
  | Some i => if (0 <=? i) && (i <? Z.of_nat size) then wrap32 i else noindex
  | None => noindex
  end.

(** [xr.where((yidx==noindex)|(xidx==noindex), noindex, yidx*width + xidx)]
    on [uint32] operands. *)
Definition matrix_ll_cell (width : nat) (yidx xidx : Z) : Z :=
  if (yidx =? noindex) || (xidx =? noindex) then noindex
  else wrap32 (yidx * Z.of_nat width + xidx).

(** The test of the spec: row and column fall on the footprint. *)
Definition on_grid (height width : nat) (ry rx : Z) : bool :=
  (0 <=? ry) && (ry <? Z.of_nat height) && (0 <=? rx) && (rx <? Z.of_nat width).

(** [intf_ra2ll_matrix] up to [if interactive]: the matrix [matrix_ll],
    block by block over [trans_dat]. *)
Definition ra2ll_matrix (self : SBAS) (intf_grid : RadarGrid)
  : result (list (list (ndarray Z))) :=
  let ys := grid_y intf_grid in
  let xs := grid_x intf_grid in
  ymin ← array_min ys;
  dy ← diff0 ys;
  xmin ← array_min xs;
  dx ← diff0 xs;
  let cell (p : TransformPoint) :=
    let trans_yidx := index_or_noindex (length ys) (trans_idx (azi p) ymin dy) in
    let trans_xidx := index_or_noindex (length xs) (trans_idx (rng p) xmin dx) in
    matrix_ll_cell (length xs) trans_yidx trans_xidx in
  mret (map (map (fun b => mk_ndarray (shape b) (map cell (data b))))
           (trans_dat self)).

(** The cell of the matrix for a point of rounded row [ry] and column [rx]. *)
Definition matrix_ll_at (height width : nat) (ry rx : option Z) : Z :=
  matrix_ll_cell width (index_or_noindex height ry) (index_or_noindex width rx).

(** The cell as the specification words it, with unbounded integers: the
    flat index [ry*width + rx] of the rounded row and column when they fall
    on the footprint, the sentinel otherwise (a row or column that is no
    number falls on no cell). *)
Definition spec_cell (height width : nat) (ry rx : option Z) : Z :=
  match ry, rx with
  | Some ry, Some rx =>
      if on_grid height width ry rx then ry * Z.of_nat width + rx else noindex
  | _, _ => noindex
  end.

Definition spec_ra2ll_cell (intf_grid : RadarGrid) (ymin dy xmin dx : Q)
    (p : TransformPoint) : Z :=
  let height := length (grid_y intf_grid) in
  let width := length (grid_x intf_grid) in
  let ry := np_round <$> float_div (fsub (azi p) ymin) dy in
  let rx := np_round <$> float_div (fsub (rng p) xmin) dx in
  spec_cell height width ry rx.

(** [intf_ra2ll_matrix(intf_grid, interactive)] *)
Definition intf_ra2ll_matrix (self : SBAS) (intf_grid : RadarGrid)
    (interactive : bool) (w : World)
  : result (build (list (list (ndarray Z)))) * World :=
  match ra2ll_matrix self intf_grid with
  | inl e => (inl e, w)
  | inr matrix_ll =>
      if interactive then (inr (Pending matrix_ll), w)
      else
        let filename := get_filenames self "intf_ra2ll" in
        let w1 :=
          if os_path_exists filename w then os_remove filename w else w in
        (inr (Handler filename matrix_ll), to_netcdf filename "intf_ra2ll" w1)
  end.

(** ** ll2ra: the matrix *)

(** Squared Euclidean distance in (azimuth, range); the nearest point by
    Euclidean distance is the nearest by its square. *)
Definition sqdist (s t : Q * Q) : Q :=
  ((s.1 - t.1) * (s.1 - t.1) + (s.2 - t.2) * (s.2 - t.2))%Q.

(** [cKDTree(source).query(t, k=1)]: the position in [source] of a point
    nearest to [t]. The scan keeps the first of equally near points; on an
    empty [source] the answer is [len(source)], which is no valid position. *)
Fixpoint nearest_from (best : nat) (bestd : Q) (i : nat)
    (source : list (Q * Q)) (t : Q * Q) : nat :=
  match source with
  | [] => best
  | s :: source' =>
      if Qle_bool bestd (sqdist s t)
      then nearest_from best bestd (S i) source' t
      else nearest_from i (sqdist s t) (S i) source' t
  end.

Definition tree_query (source : list (Q * Q)) (t : Q * Q) : nat :=
  match source with
  | [] => 0%nat
  | s :: source' => nearest_from 0 (sqdist s t) 1 source' t
  end.

(** [(extents[:,3] >= ymin-1) & (extents[:,2] <= ymax+1)] and the same on the
    range columns 5 and 4. *)
Definition ymask (ymin ymax : Q) (e : BlockExtent) : bool :=
  Qle_bool (fsub ymin 1) (azimuthMax e) && Qle_bool (azimuthMin e) (fadd ymax 1).

Definition xmask (xmin xmax : Q) (e : BlockExtent) : bool :=
  Qle_bool (fsub xmin 1) (rangeMax e) && Qle_bool (rangeMin e) (fadd xmax 1).

Definition select_blocks (extents : list BlockExtent)
    (ymin ymax xmin xmax : Q) : list BlockExtent :=
  List.filter (fun e => ymask ymin ymax e && xmask xmin xmax e) extents.

(** [trans_dat.<var>.data.blocks[iy, ix]] *)
Definition load_block (self : SBAS) (e : BlockExtent)
  : result (ndarray TransformPoint) :=
  match block_at (trans_dat self) (blockRow e) (blockCol e) with
  | Some b => mret b
  | None => raise IndexError
  end.

Definition shape_eqb (s t : nat * nat) : bool :=
  (s.1 =? t.1)%nat && (s.2 =? t.2)%nat.

(** [calc_intf_ll2ra_matrix(azi, rng)], the function applied to each chunk
    of the footprint ([azi_], [rng_]: the parameters [azi], [rng]). *)
Definition calc_intf_ll2ra_matrix (self : SBAS) (azi_ rng_ : ndarray Q)
  : result (ndarray Z) :=
  assert_ (shape_eqb (shape azi_) (shape rng_)) "ERROR: shapes differ" (
    ymin ← array_min (data azi_);
    ymax ← array_max (data azi_);
    xmin ← array_min (data rng_);
    xmax ← array_max (data rng_);
    let blocks := select_blocks (trans_blocks_extents self) ymin ymax xmin xmax in
    loaded ← mapM_result (load_block self) blocks;
    let blocks_azis := map (fun b => map azi (data b)) loaded in
    let blocks_rngs := map (fun b => map rng (data b)) loaded in
    let blocks_idxs := map (fun b => map idx (data b)) loaded in
    if (length blocks_azis =? 0)%nat then mret (np_full (shape azi_) noindex)
    else
      let source_yxs := zip (concat blocks_azis) (concat blocks_rngs) in
      let target_yxs := zip (data azi_) (data rng_) in
      let inds := map (tree_query source_yxs) target_yxs in
      matrix ← np_take (concat blocks_idxs) (map Z.of_nat inds);
      mret (mk_ndarray (shape azi_) matrix)).

(** An array holds as many values as its shape says. *)
Definition well_shaped {A} (a : ndarray A) : Prop :=
  length (data a) = ((shape a).1 * (shape a).2)%nat.






(** [.chunk(size)] along one axis of length [n]. *)
Definition regular_chunks (size n : nat) : list nat :=
  if (n =? 0)%nat then [0%nat]
  else replicate (n / size) size
       ++ (if (n mod size =? 0)%nat then [] else [(n mod size)%nat]).

(** The pieces of a coordinate that fall in the successive chunks. *)
Fixpoint split_chunks {A} (sizes : list nat) (l : list A) : list (list A) :=
  match sizes with
  | [] => []
  | s :: sizes' => take s l :: split_chunks sizes' (drop s l)
  end.

(** One block of the broadcast [azis] ([rngs]): the azimuths [yc] down the
    rows, the ranges [xc] along the columns. *)
Definition azis_block (yc xc : list Q) : ndarray Q :=
  mk_ndarray (length yc, length xc)
             (concat (map (fun a => replicate (length xc) a) yc)).

Definition rngs_block (yc xc : list Q) : ndarray Q :=
  mk_ndarray (length yc, length xc) (concat (map (fun _ => xc) yc)).

(** [xr.unify_chunks(intf_grid, azis, rngs)] seen from [azis] ([rngs]), which
    holds a single block: along each axis the common partition is the
    footprint's when that has several blocks, and the single block
    otherwise; a footprint that is not chunked leaves [azis] as it is. *)
Definition common_blockdim (c single : list nat) : list nat :=
  if (length c <=? 1)%nat then single else c.

Definition unify_chunks (g : chunks_t) (a : list nat * list nat)
  : list nat * list nat :=
  match g with
  | Some c => (common_blockdim c.1 a.1, common_blockdim c.2 a.2)
  | None => a
  end.

(** The lazy matrix [matrix_ra]: its chunks and what each block computes. *)
Record LazyMatrix : Type := mk_lazy {
  lm_chunks : chunks_t;
  lm_blocks : list (list (result (ndarray Z)))
}.

(** [intf_ll2ra_matrix] up to [if interactive]: the two assertions and the
    matrix [matrix_ra], one call of [calc_intf_ll2ra_matrix] per chunk. *)
Definition ll2ra_matrix (self : SBAS) (intf_grid : RadarGrid)
  : result LazyMatrix :=
  let ys := grid_y intf_grid in
  let xs := grid_x intf_grid in
  let azis_chunks := unify_chunks (grid_chunks intf_grid) ([length ys], [length xs]) in
  let rngs_chunks := unify_chunks (grid_chunks intf_grid) ([length ys], [length xs]) in
  assert_ (bool_decide (grid_chunks intf_grid = Some azis_chunks)
           && bool_decide (grid_chunks intf_grid = Some rngs_chunks))
          "Chunks are not equal" (
    let ychunks := regular_chunks (chunksize self) (length ys) in
    let xchunks := regular_chunks (chunksize self) (length xs) in
    let matrix_ra :=
      mk_lazy (Some (ychunks, xchunks))
        (map (fun yc =>
                map (fun xc => calc_intf_ll2ra_matrix self
                                 (azis_block yc xc) (rngs_block yc xc))
                    (split_chunks xchunks xs))
             (split_chunks ychunks ys)) in
    assert_ (bool_decide (grid_chunks intf_grid = lm_chunks matrix_ra))
            "Inverse geocoding matrix chunks are not equal to interferogram chunks"
            (mret matrix_ra)).

(** The partition the matrix is built on: [azis] and [rngs] re-chunked by
    [self.chunksize]. *)
Definition built_chunks (self : SBAS) (g : RadarGrid) : chunks_t :=
  Some (regular_chunks (chunksize self) (length (grid_y g)),
        regular_chunks (chunksize self) (length (grid_x g))).

(** [intf_ll2ra_matrix(intf_grid, interactive)] *)
Definition intf_ll2ra_matrix (self : SBAS) (intf_grid : RadarGrid)
    (interactive : bool) (w : World)
  : result (build LazyMatrix) * World :=
  match ll2ra_matrix self intf_grid with
  | inl e => (inl e, w)
  | inr matrix_ra =>
      if interactive then (inr (Pending matrix_ra), w)
      else
        let filename := get_filenames self "intf_ll2ra" in
        let w1 :=
          if os_path_exists filename w then os_remove filename w else w in
        (inr (Handler filename matrix_ra), to_netcdf filename "intf_ll2ra" w1)
  end.

(** ** Resampling *)

(** A grid value: missing ([nan]) or a number. *)
Inductive fval : Type :=
| FNaN
| FVal (q : Q).

(** A 2-D [xr.DataArray]: the names of its axes and its values. *)
Record DataArray : Type := mk_dataarray {
  dims : list string;
  values : ndarray fval
}.

(** The inner [ra2ll(grid)] of [intf_ra2ll]. *)
Definition ra2ll (matrix_ra2ll : ndarray Z) (grid : ndarray fval)
  : result (ndarray fval) :=
  let valid_index :=
    map (fun m => if negb (m =? noindex) then m else 0) (data matrix_ra2ll) in
  picked ← np_take (data grid) valid_index;
  mret (mk_ndarray (shape matrix_ra2ll)
         (zip_with (fun m v => if negb (m =? noindex) then v else FNaN)
                   (data matrix_ra2ll) picked)).

(** The inner [ll2ra(grid)] of [intf_ll2ra]. *)
Definition ll2ra (matrix_ll2ra : ndarray Z) (grid : ndarray fval)
  : result (ndarray fval) :=
  picked ← np_take (data grid) (data matrix_ll2ra);
  mret (mk_ndarray (shape matrix_ll2ra) picked).

(** The value of [<name>.dims] in a scope: a name that is not bound raises
    [NameError]. *)
Definition dims_of (scope : gmap string DataArray) (name : string)
  : result (list string) :=
  match scope !! name with
  | Some g => mret (dims g)
  | None => raise (NameError name)
  end.

(** [not a in grids.dims and b in grid.dims]: [not] binds tighter than
    [and], and [and] evaluates its right operand only when the left one is
    true. *)
Definition helper_check (scope : gmap string DataArray) (a b : string)
  : result bool :=
  d ← dims_of scope "grids";
  if negb (bool_decide (a ∈ d))
  then d' ← dims_of scope "grid"; mret (bool_decide (b ∈ d'))
  else mret false.

Definition NOTE : string :=
  "NOTE: the grid is not in geograpphic coordinates, miss geocoding".

Section Resample.
(** [grids.interp_like(source_grid, method='nearest')] is xarray's; only
    the shape of the grid it resamples onto matters here. *)
Variable interp_like : ndarray fval -> nat * nat -> ndarray fval.

(** [intf_ra2ll(grids)] on a single 2-D grid whose two axes belong to one
    frame, (y, x) or (lat, lon); a stack of grids, which the source gathers
    layer by layer with [ra2ll], and a grid that mixes the frames are not
    modelled. The scope of the helper check holds the parameter [grids];
    the other names bound there ([self], [xr], [np]) are not grids. What is
    printed is returned beside the result. *)
Definition intf_ra2ll (matrix_ll2ra matrix_ra2ll : ndarray Z)
    (grids : DataArray) : result DataArray * list string :=
  let scope : gmap string DataArray := {[ "grids" := grids ]} in
  match helper_check scope "y" "x" with
  | inl e => (inl e, [])
  | inr true => (inr grids, [NOTE])
  | inr false =>
      let grid := interp_like (values grids) (shape matrix_ll2ra) in
      (out ← ra2ll matrix_ra2ll grid;
       mret (mk_dataarray ["lat"; "lon"] out), [])
  end.

(** [intf_ll2ra(grids)], on the same grids. *)
Definition intf_ll2ra (trans_dat_shape : nat * nat) (matrix_ll2ra : ndarray Z)
    (grids : DataArray) : result DataArray * list string :=
  let scope : gmap string DataArray := {[ "grids" := grids ]} in
  match helper_check scope "lat" "lon" with
  | inl e => (inl e, [])
  | inr true => (inr grids, [NOTE])
  | inr false =>
      let grid := interp_like (values grids) trans_dat_shape in
      (out ← ll2ra matrix_ll2ra grid;
       mret (mk_dataarray ["y"; "x"] out), [])
  end.
End Resample.

(** ** The footprint of [geocode_parallel] *)

(** [min] of two values that skips missing ones ([skipna]). *)
Definition nanmin (a b : fval) : fval :=
  match a, b with
  | FNaN, _ => b
  | _, FNaN => a
  | FVal p, FVal q => if Qle_bool p q then FVal p else FVal q
  end.

(** [stack.min('pair')] on the flattened layers of the stack. *)
Definition min_pair (stack : list (list fval)) : result (list fval) :=
  match stack with
  | [] => raise ValueError
  | layer :: layers => mret (foldl (zip_with nanmin) layer layers)
  end.

(** [.astype(bool)]: every value but zero is true, [nan] included. *)
Definition astype_bool (v : fval) : bool :=
  match v with
  | FNaN => true
  | FVal q => negb (Qeq_bool q 0)
  end.

(** [intf_grid = open_grids(pairs, 'phasefilt').min('pair').astype(bool)] *)
Definition geocode_intf_grid (stack : list (list fval)) : result (list bool) :=
  m ← min_pair stack;
  mret (map astype_bool m).

(** Some pair has data at cell [c] of the stack. *)
Definition present_at (stack : list (list fval)) (c : nat) : Prop :=
  exists layer q, layer ∈ stack /\ layer !! c = Some (FVal q).

(** [acc] is the minimum, missing values skipped, of the values that the
    layers of [stack] hold at cell [c]. *)
Definition column_min (stack : list (list fval)) (c : nat) (acc : fval) : Prop :=
  match acc with
  | FNaN => forall l v, l ∈ stack -> l !! c = Some v -> v = FNaN
  | FVal m =>
      (exists l, l ∈ stack /\ l !! c = Some (FVal m)) /\
      forall l q, l ∈ stack -> l !! c = Some (FVal q) -> (m <= q)%Q
  end.

(** ** A small scene

    The 4x4 footprint with unit cells and origin (0,0), chunked 2x2, and a
    transform dataset of two blocks: four points on the corners of the
    footprint, and two points far outside it. *)
Module Scene.
Definition pt (a r : Z) (i : Z) : TransformPoint :=
  mk_point (inject_Z a) (inject_Z r) i.

Definition corners : ndarray TransformPoint :=
  mk_ndarray (2, 2)%nat [pt 0 0 0; pt 0 3 1; pt 3 0 2; pt 3 3 3].

Definition far : ndarray TransformPoint :=
  mk_ndarray (1, 2)%nat [pt 40 40 4; pt 41 40 5].

(** The coordinates [start, start+1, ...] of [n] unit cells. *)
Fixpoint arange (start : Z) (n : nat) : list Q :=
  match n with
  | O => []
  | S n' => inject_Z start :: arange (start + 1) n'
  end.

Definition coords : list Q := arange 0 4.

Definition extents : list BlockExtent :=
  [ mk_extent 0 0 0 3 0 3; mk_extent 0 1 40 41 40 40 ].

Definition self : SBAS :=
  mk_sbas [[corners; far]] extents 2 (fun name => name +:+ ".grd").

Definition intf_grid : RadarGrid :=
  mk_grid coords coords (Some ([2; 2], [2; 2])%nat).

Definition world : World := mk_world {[ "intf_ra2ll.grd" ]} [].

Definition matrix_ll : list (list (ndarray Z)) :=
  [[mk_ndarray (2, 2)%nat [0; 3; 12; 15];
    mk_ndarray (1, 2)%nat [noindex; noindex]]].

Definition matrix_ra : LazyMatrix :=
  mk_lazy (Some ([2; 2], [2; 2])%nat)
    [[inr (mk_ndarray (2, 2)%nat [0; 0; 0; 0]);
      inr (mk_ndarray (2, 2)%nat [1; 1; 1; 1])];
     [inr (mk_ndarray (2, 2)%nat [2; 2; 2; 2]);
      inr (mk_ndarray (2, 2)%nat [3; 3; 3; 3])]].

(** The first chunk of the footprint. *)
Definition chunk_azi : ndarray Q := azis_block (arange 0 2) (arange 0 2).
Definition chunk_rng : ndarray Q := rngs_block (arange 0 2) (arange 0 2).

(** A chunk far from every block. *)
Definition gap_azi : ndarray Q := azis_block (arange 20 2) (arange 20 2).
Definition gap_rng : ndarray Q := rngs_block (arange 20 2) (arange 20 2).

(** Grids on the footprint and on the geographic raster, and resampling
    that finds them already on the target grid. *)
Definition ones : DataArray :=
  mk_dataarray ["y"; "x"] (mk_ndarray (4, 4)%nat (replicate 16 (FVal 1))).

Definition geo : DataArray :=
  mk_dataarray ["lat"; "lon"]
    (mk_ndarray (2, 2)%nat [FVal 5; FVal 6; FVal 7; FVal 8]).

Definition interp_id (a : ndarray fval) (target : nat * nat) : ndarray fval := a.

Definition matrix_ra2ll : ndarray Z :=
  mk_ndarray (2, 3)%nat [0; noindex; 3; 12; noindex; 15].

Definition matrix_ll2ra : ndarray Z :=
  mk_ndarray (4, 4)%nat [0; 0; 1; 1; 0; 0; 1; 1; 2; 2; 3; 3; 2; 2; 3; 3].

(** The matrix of a footprint one of whose chunks met no block. *)
Definition matrix_ll2ra_gap : ndarray Z :=
  mk_ndarray (2, 2)%nat [0; 1; noindex; noindex].

(** The same footprint held in three-cell chunks. *)
Definition intf_grid3 : RadarGrid :=
  mk_grid coords coords (Some ([3; 1], [3; 1])%nat).

(** A footprint of 65537 rows and 65536 columns, and a point on its last
    row. *)
Definition big_grid : RadarGrid :=
  mk_grid (arange 0 (Z.to_nat 65537)) (arange 0 (Z.to_nat 65536)) None.

Definition big_self : SBAS :=
  mk_sbas [[mk_ndarray (1, 1)%nat [pt 65536 0 0]]] [] 512 (fun name => name).
End Scene.

(** ** More of the scene *)
Module Scene2.
(** Footprints with no row, and with a single row. *)
Definition no_rows : RadarGrid := mk_grid [] Scene.coords None.
Definition one_row : RadarGrid := mk_grid [0%Q] Scene.coords None.
Definition no_cols : RadarGrid := mk_grid Scene.coords [] None.
Definition one_col : RadarGrid := mk_grid Scene.coords [0%Q] None.

(** A transform dataset whose points lie off the nodes of the footprint. *)
Definition off_nodes : SBAS :=
  mk_sbas [[mk_ndarray (1, 2)%nat
              [mk_point (5 # 4) (23 # 8) 0; mk_point (5 # 2) (-3 # 8) 1]]]
          [] 2 (fun name => name +:+ ".grd").
End Scene2.

(** ** Notions for the nearest-neighbour search *)


(** A point of a block that the table of extents lists. *)
Definition listed (self : SBAS) (p : TransformPoint) : Prop :=
  exists e b,
    e ∈ trans_blocks_extents self /\ load_block self e = inr b /\ p ∈ data b.

Module Scene3.
(** A table that lists a block the transform dataset does not have. *)
Definition stale : SBAS :=
  mk_sbas [[Scene.corners]] [mk_extent 0 0 0 3 0 3; mk_extent 1 0 0 3 0 3] 2
          (fun name => name).

Definition empty_chunk : ndarray Q := mk_ndarray (0, 2)%nat [].
Definition row_chunk : ndarray Q := mk_ndarray (1, 4)%nat Scene.coords.
End Scene3.

Module Scene4.
(** The corner block under an extent that bounds its points, and a cell at
    unit distance from the corner (0, 0). *)
Definition self : SBAS :=
  mk_sbas [[Scene.corners]] [mk_extent 0 0 0 3 0 3] 2 (fun name => name).
Definition cell_azi : ndarray Q := mk_ndarray (1, 1)%nat [(-1)%Q].
Definition cell_rng : ndarray Q := mk_ndarray (1, 1)%nat [0%Q].
End Scene4.

Module Scene5.
(** The float64 values nearest to 0.1 and to -0.9: in float64,
    [0.1 - 1 == -0.9], while the real 0.1 - 1 lies above -0.9. *)
Definition tenth : Q := round64 (1 # 10).
Definition minus_nine_tenths : Q := round64 (-9 # 10).

(** One block, whose azimuths end at -0.9, and a chunk of one cell at the
    azimuth 0.1. *)
Definition ext : BlockExtent := mk_extent 0 0 (-3) minus_nine_tenths (-1) 1.
Definition self : SBAS :=
  mk_sbas [[mk_ndarray (1, 1)%nat [mk_point (-2) 0 7]]] [ext] 2
          (fun name => name).
Definition cell_azi : ndarray Q := mk_ndarray (1, 1)%nat [tenth].
Definition cell_rng : ndarray Q := mk_ndarray (1, 1)%nat [0%Q].
End Scene5.

(** * Properties *)

Local Open Scope Z_scope.

Example ra2ll_matrix_scene :
  ra2ll_matrix Scene.self Scene.intf_grid = inr Scene.matrix_ll.
Proof. vm_compute. reflexivity. Qed.

Example ll2ra_matrix_scene :
  ll2ra_matrix Scene.self Scene.intf_grid = inr Scene.matrix_ra.
Proof. vm_compute. reflexivity. Qed.

Example np_round_ties :
  map np_round [1 # 2; 3 # 2; 5 # 2; -1 # 2; -3 # 2; 7 # 4; -7 # 4]%Q
  = [0; 2; 2; 0; -2; 2; -2].
Proof. reflexivity. Qed.

Example ra2ll_matrix_big :
  ra2ll_matrix Scene.big_self Scene.big_grid = inr [[mk_ndarray (1, 1)%nat [0]]].
Proof. vm_compute. reflexivity. Qed.

(** ** Generic list facts *)

Lemma map_lookup {A B} (f : A -> B) (l : list A) (i : nat) :
  map f l !! i = f <$> (l !! i).
Proof. exact (list_lookup_fmap f l i). Qed.

Lemma block_at_map {A B} (f : A -> B) (blocks : list (list A)) iy ix :
  block_at (map (map f) blocks) iy ix = f <$> block_at blocks iy ix.
Proof.
  unfold block_at. rewrite map_lookup.
  destruct (blocks !! iy) as [row|]; simpl; [apply map_lookup | reflexivity].
Qed.

(** ** Rounding to float64 *)

Lemma inject_Z_le_plus f i c :
  f <= i + c -> (inject_Z f <= inject_Z i + inject_Z c)%Q.
Proof. intros H. rewrite <- inject_Z_plus, <- Zle_Qle. exact H. Qed.


















Lemma round64_comp q q' : (q == q')%Q -> round64 q = round64 q'.
Proof. intros E. unfold round64. by rewrite (Qred_complete q q' E). Qed.




Example round64_tenth : round64 (1 # 10) = 3602879701896397 # 36028797018963968.
Proof. vm_compute. reflexivity. Qed.

(** ** The ra2ll matrix *)

Section Ra2llCell.
Variables height width : nat.
Variables ry rx : Z.

Lemma matrix_ll_at_off_grid :
  on_grid height width ry rx = false ->
  matrix_ll_at height width (Some ry) (Some rx) = noindex.
Proof.
  unfold on_grid, matrix_ll_at, matrix_ll_cell, index_or_noindex.
  intros Hoff.
  destruct ((0 <=? ry) && (ry <? Z.of_nat height)) eqn:Hy.
  - simpl in Hoff. rewrite Hoff.
    rewrite Z.eqb_refl, orb_true_r. reflexivity.
  - rewrite Z.eqb_refl. reflexivity.
Qed.

Lemma on_grid_true :
  on_grid height width ry rx = true ->
  0 <= ry < Z.of_nat height /\ 0 <= rx < Z.of_nat width.
Proof.
  unfold on_grid. intros Hon.
  apply andb_prop in Hon as [Hon Hx2].
  apply andb_prop in Hon as [Hon Hx1]. apply andb_prop in Hon as [Hy1 Hy2].
  apply Z.leb_le in Hy1, Hx1. apply Z.ltb_lt in Hy2, Hx2. lia.
Qed.

Lemma matrix_ll_at_on_grid :
  on_grid height width ry rx = true ->
  matrix_ll_at height width (Some ry) (Some rx)
  = if (wrap32 ry =? noindex) || (wrap32 rx =? noindex) then noindex
    else wrap32 (wrap32 ry * Z.of_nat width + wrap32 rx).
Proof.
  intros Hon. apply on_grid_true in Hon as [[Hy1 Hy2] [Hx1 Hx2]].
  unfold matrix_ll_at, matrix_ll_cell, index_or_noindex.
  apply Z.leb_le in Hy1, Hx1. apply Z.ltb_lt in Hy2, Hx2.
  rewrite Hy1, Hy2, Hx1, Hx2. reflexivity.
Qed.

Lemma matrix_ll_at_some_in_range :
  matrix_ll_at height width (Some ry) (Some rx) = noindex
  \/ 0 <= matrix_ll_at height width (Some ry) (Some rx)
       < Z.of_nat width * Z.of_nat height.
Proof.
  destruct (on_grid height width ry rx) eqn:Hon;
    [| left; by apply matrix_ll_at_off_grid].
  rewrite (matrix_ll_at_on_grid Hon).
  apply on_grid_true in Hon as [Hy Hx].
  destruct ((wrap32 ry =? noindex) || (wrap32 rx =? noindex)); [by left | right].
  unfold wrap32.
  pose proof (Z.mod_pos_bound (ry mod 2 ^ 32 * Z.of_nat width + rx mod 2 ^ 32)
                (2 ^ 32) ltac:(lia)) as Hb.
  split; [lia |].
  destruct (Z_le_gt_dec (Z.of_nat width * Z.of_nat height) (2 ^ 32)) as [Hs | Hs];
    [| lia].
  assert (ry < 2 ^ 32) by nia. assert (rx < 2 ^ 32) by nia.
  rewrite (Z.mod_small ry), (Z.mod_small rx) by lia.
  rewrite Z.mod_small by nia. nia.
Qed.

Lemma matrix_ll_at_some_exact :
  Z.of_nat width * Z.of_nat height <= 2 ^ 32 ->
  matrix_ll_at height width (Some ry) (Some rx)
  = if on_grid height width ry rx then ry * Z.of_nat width + rx else noindex.
Proof.
  intros Hs.
  destruct (on_grid height width ry rx) eqn:Hon;
    [| by apply matrix_ll_at_off_grid].
  rewrite (matrix_ll_at_on_grid Hon).
  apply on_grid_true in Hon as [Hy Hx].
  assert (ry < 2 ^ 32) by nia. assert (rx < 2 ^ 32) by nia.
  unfold wrap32. rewrite (Z.mod_small ry), (Z.mod_small rx) by lia.
  rewrite Z.mod_small by nia.
  destruct ((ry =? noindex) || (rx =? noindex)) eqn:Hn; [| reflexivity].
  unfold noindex in *.
  apply orb_prop in Hn as [Hn | Hn]; apply Z.eqb_eq in Hn; nia.
Qed.
End Ra2llCell.

Lemma matrix_ll_at_none height width ry rx :
  ry = None \/ rx = None -> matrix_ll_at height width ry rx = noindex.
Proof.
  unfold matrix_ll_at, matrix_ll_cell.
  intros [-> | ->]; cbn [index_or_noindex];
    rewrite Z.eqb_refl, ?orb_true_r; reflexivity.
Qed.

Lemma matrix_ll_at_in_range height width ry rx :
  matrix_ll_at height width ry rx = noindex
  \/ 0 <= matrix_ll_at height width ry rx < Z.of_nat width * Z.of_nat height.
Proof.
  destruct ry as [ry|]; [| left; apply matrix_ll_at_none; by left].
  destruct rx as [rx|]; [| left; apply matrix_ll_at_none; by right].
  apply matrix_ll_at_some_in_range.
Qed.

Lemma matrix_ll_at_exact height width ry rx :
  Z.of_nat width * Z.of_nat height <= 2 ^ 32 ->
  matrix_ll_at height width ry rx = spec_cell height width ry rx.
Proof.
  intros Hs.
  destruct ry as [ry|]; [| apply matrix_ll_at_none; by left].
  destruct rx as [rx|]; [| apply matrix_ll_at_none; by right].
  by apply matrix_ll_at_some_exact.
Qed.

Lemma ra2ll_matrix_inv self g M :
  ra2ll_matrix self g = inr M ->
  exists ymin dy xmin dx,
    array_min (grid_y g) = inr ymin /\ diff0 (grid_y g) = inr dy /\
    array_min (grid_x g) = inr xmin /\ diff0 (grid_x g) = inr dx /\
    M = map (map (fun b => mk_ndarray (shape b)
           (map (fun p =>
              matrix_ll_cell (length (grid_x g))
                (index_or_noindex (length (grid_y g)) (trans_idx (azi p) ymin dy))
                (index_or_noindex (length (grid_x g)) (trans_idx (rng p) xmin dx)))
              (data b)))) (trans_dat self).
Proof.
  unfold ra2ll_matrix. intros HM.
  destruct (array_min (grid_y g)) as [|ymin]; [discriminate |].
  destruct (diff0 (grid_y g)) as [|dy]; [discriminate |].
  destruct (array_min (grid_x g)) as [|xmin]; [discriminate |].
  destruct (diff0 (grid_x g)) as [|dx]; [discriminate |].
  simpl in HM. inversion HM. by exists ymin, dy, xmin, dx.
Qed.

Lemma ra2ll_matrix_total self g :
  (2 <= length (grid_y g))%nat -> (2 <= length (grid_x g))%nat ->
  exists M, ra2ll_matrix self g = inr M.
Proof.
  unfold ra2ll_matrix. intros Hy Hx.
  destruct (grid_y g) as [|y0 [|y1 ys]]; simpl in Hy; try lia.
  destruct (grid_x g) as [|x0 [|x1 xs]]; simpl in Hx; try lia.
  simpl. eauto.
Qed.

Lemma intf_ra2ll_matrix_inv self g interactive w b w' :
  intf_ra2ll_matrix self g interactive w = (inr b, w') ->
  ra2ll_matrix self g = inr (built b).
Proof.
  unfold intf_ra2ll_matrix.
  destruct (ra2ll_matrix self g) as [e|M]; [discriminate |].
  destruct interactive; intros [= <- _]; reflexivity.
Qed.

Lemma intf_ra2ll_matrix_returns self g interactive w M :
  ra2ll_matrix self g = inr M ->
  exists b w', intf_ra2ll_matrix self g interactive w = (inr b, w') /\ built b = M.
Proof.
  unfold intf_ra2ll_matrix. intros ->.
  destruct interactive; eauto.
Qed.

(** C7. Every cell of the matrix that [intf_ra2ll_matrix] builds is the
    sentinel [noindex] or a flat index into the radar grid, a value in
    [0, width*height); and on a grid of at least two rows and two columns
    the matrix is built. *)
Theorem intf_ra2ll_matrix_cells_valid self g interactive w :
  (forall b w',
     intf_ra2ll_matrix self g interactive w = (inr b, w') ->
     forall iy ix out k v,
       block_at (built b) iy ix = Some out -> data out !! k = Some v ->
       v = noindex \/
       0 <= v < Z.of_nat (length (grid_x g)) * Z.of_nat (length (grid_y g)))
  /\ ((2 <= length (grid_y g))%nat -> (2 <= length (grid_x g))%nat ->
      exists b w', intf_ra2ll_matrix self g interactive w = (inr b, w')).
Proof.
  split.
  - intros b w' Hrun iy ix out k v Hblk Hv.
    apply intf_ra2ll_matrix_inv in Hrun.
    apply ra2ll_matrix_inv in Hrun as (ymin & dy & xmin & dx & _ & _ & _ & _ & HM).
    rewrite HM, block_at_map in Hblk.
    destruct (block_at (trans_dat self) iy ix) as [blk|]; [| discriminate].
    simpl in Hblk. injection Hblk as <-. simpl in Hv.
    rewrite map_lookup in Hv.
    destruct (data blk !! k) as [p|]; [| discriminate].
    simpl in Hv. injection Hv as <-. apply matrix_ll_at_in_range.
  - intros Hy Hx.
    destruct (ra2ll_matrix_total self g Hy Hx) as [M HM].
    destruct (intf_ra2ll_matrix_returns self g interactive w M HM) as (b & w' & Hb & _).
    eauto.
Qed.

Lemma intf_ra2ll_matrix_cells_valid_witness :
  (forall out k v,
     block_at [[mk_ndarray (2, 2)%nat [0; 3; 12; 15];
                mk_ndarray (1, 2)%nat [noindex; noindex]]] 0 1 = Some out ->
     data out !! k = Some v ->
     v = noindex \/ 0 <= v < 4 * 4)
  /\ exists b w',
      intf_ra2ll_matrix Scene.self Scene.intf_grid true Scene.world = (inr b, w').
Proof.
  split.
  - intros out k v.
    apply (proj1 (intf_ra2ll_matrix_cells_valid
                    Scene.self Scene.intf_grid true Scene.world)
             (Pending _) Scene.world).
    vm_compute. reflexivity.
  - apply (proj2 (intf_ra2ll_matrix_cells_valid
                    Scene.self Scene.intf_grid true Scene.world));
      simpl; lia.
Defined.

(** C2, as amended. When [width*height <= 2^32], so that every flat index
    of the footprint fits the 32-bit cells of the matrix, the matrix is built
    and, for every point [p] of the transform dataset, the cell at [p]'s
    place holds [ry*width + rx] if the rounded row [ry] and column [rx]
    fall on the footprint, and [noindex] otherwise. *)
Theorem intf_ra2ll_matrix_cell self g interactive w ymin dy xmin dx :
  array_min (grid_y g) = inr ymin -> diff0 (grid_y g) = inr dy ->
  array_min (grid_x g) = inr xmin -> diff0 (grid_x g) = inr dx ->
  Z.of_nat (length (grid_x g)) * Z.of_nat (length (grid_y g)) <= 2 ^ 32 ->
  exists b w',
    intf_ra2ll_matrix self g interactive w = (inr b, w') /\
    forall iy ix blk k p,
      block_at (trans_dat self) iy ix = Some blk -> data blk !! k = Some p ->
      exists out,
        block_at (built b) iy ix = Some out /\ shape out = shape blk /\
        data out !! k = Some (spec_ra2ll_cell g ymin dy xmin dx p).
Proof.
  intros Hymin Hdy Hxmin Hdx Hsize.
  assert (exists M, ra2ll_matrix self g = inr M) as [M HM].
  { unfold ra2ll_matrix. rewrite Hymin, Hdy, Hxmin, Hdx. simpl. eauto. }
  destruct (intf_ra2ll_matrix_returns self g interactive w M HM) as (b & w' & Hb & HbM).
  exists b, w'. split; [exact Hb |].
  intros iy ix blk k p Hblk Hp.
  apply ra2ll_matrix_inv in HM as (ymin' & dy' & xmin' & dx' & E1 & E2 & E3 & E4 & ->).
  rewrite Hymin in E1. rewrite Hdy in E2. rewrite Hxmin in E3. rewrite Hdx in E4.
  injection E1 as <-. injection E2 as <-. injection E3 as <-. injection E4 as <-.
  rewrite HbM, block_at_map, Hblk. simpl.
  eexists. split; [reflexivity |]. split; [reflexivity |]. simpl.
  rewrite map_lookup, Hp. simpl. f_equal.
  unfold spec_ra2ll_cell. by apply matrix_ll_at_exact.
Qed.

Lemma intf_ra2ll_matrix_cell_witness :
  exists b w',
    intf_ra2ll_matrix Scene.self Scene.intf_grid false Scene.world = (inr b, w') /\
    forall iy ix blk k p,
      block_at (trans_dat Scene.self) iy ix = Some blk -> data blk !! k = Some p ->
      exists out,
        block_at (built b) iy ix = Some out /\ shape out = shape blk /\
        data out !! k = Some (spec_ra2ll_cell Scene.intf_grid 0 1 0 1 p).
Proof.
  apply (intf_ra2ll_matrix_cell Scene.self Scene.intf_grid false Scene.world 0 1 0 1);
    [vm_compute; reflexivity .. | simpl; lia].
Defined.

(** C2, as stated, fails on a footprint of 65537 rows and 65536 columns: the
    point on row 65536 and column 0 has the flat index 2^32, and the 32-bit
    cell holds 0. *)
Lemma intf_ra2ll_matrix_cell_wraps :
  array_min (grid_y Scene.big_grid) = inr 0%Q /\
  diff0 (grid_y Scene.big_grid) = inr 1%Q /\
  array_min (grid_x Scene.big_grid) = inr 0%Q /\
  diff0 (grid_x Scene.big_grid) = inr 1%Q /\
  ~ (exists b w',
       intf_ra2ll_matrix Scene.big_self Scene.big_grid true Scene.world = (inr b, w') /\
       forall iy ix blk k p,
         block_at (trans_dat Scene.big_self) iy ix = Some blk ->
         data blk !! k = Some p ->
         exists out,
           block_at (built b) iy ix = Some out /\ shape out = shape blk /\
           data out !! k = Some (spec_ra2ll_cell Scene.big_grid 0 1 0 1 p)).
Proof.
  repeat (split; [vm_compute; reflexivity |]).
  intros (b & w' & Hrun & Hcells).
  apply intf_ra2ll_matrix_inv in Hrun.
  rewrite ra2ll_matrix_big in Hrun. injection Hrun as Hb.
  destruct (Hcells 0%nat 0%nat _ 0%nat _ eq_refl eq_refl) as (out & Hout & _ & Hv).
  rewrite <- Hb in Hout. injection Hout as <-.
  vm_compute in Hv. discriminate.
Qed.

(** ** Persistence *)

Lemma trace_write path name w :
  let w1 := if os_path_exists path w then os_remove path w else w in
  trace (to_netcdf path name w1)
  = trace w ++ (if os_path_exists path w then [Removed path] else [])
            ++ [ToNetcdf path name].
Proof.
  destruct (os_path_exists path w); simpl; [| reflexivity].
  by rewrite <- app_assoc.
Qed.

(** C8. With [interactive=True] both builders return the pending matrix and
    leave the storage as it was: nothing is removed and nothing is written,
    whether or not the build succeeds. Without it they return the handler of
    the write, after removing the artifact if it existed and opening the new
    one, in this order. *)
Theorem interactive_build_leaves_storage self g w :
  (forall M, ra2ll_matrix self g = inr M ->
     intf_ra2ll_matrix self g true w = (inr (Pending M), w))
  /\ (forall M, ll2ra_matrix self g = inr M ->
     intf_ll2ra_matrix self g true w = (inr (Pending M), w))
  /\ (intf_ra2ll_matrix self g true w).2 = w
  /\ (intf_ll2ra_matrix self g true w).2 = w
  /\ (forall M, ra2ll_matrix self g = inr M ->
      let f := get_filenames self "intf_ra2ll" in
      exists w',
        intf_ra2ll_matrix self g false w = (inr (Handler f M), w') /\
        trace w' = trace w ++ (if os_path_exists f w then [Removed f] else [])
                           ++ [ToNetcdf f "intf_ra2ll"])
  /\ (forall M, ll2ra_matrix self g = inr M ->
      let f := get_filenames self "intf_ll2ra" in
      exists w',
        intf_ll2ra_matrix self g false w = (inr (Handler f M), w') /\
        trace w' = trace w ++ (if os_path_exists f w then [Removed f] else [])
                           ++ [ToNetcdf f "intf_ll2ra"]).
Proof.
  unfold intf_ra2ll_matrix, intf_ll2ra_matrix.
  refine (conj _ (conj _ (conj _ (conj _ (conj _ _))))).
  - by intros M ->.
  - by intros M ->.
  - by destruct (ra2ll_matrix self g).
  - by destruct (ll2ra_matrix self g).
  - intros M ->. eexists. split; [reflexivity | apply trace_write].
  - intros M ->. eexists. split; [reflexivity | apply trace_write].
Qed.

Lemma interactive_build_leaves_storage_witness :
  intf_ra2ll_matrix Scene.self Scene.intf_grid true Scene.world
    = (inr (Pending Scene.matrix_ll), Scene.world)
  /\ intf_ll2ra_matrix Scene.self Scene.intf_grid true Scene.world
    = (inr (Pending Scene.matrix_ra), Scene.world)
  /\ (exists w',
       intf_ra2ll_matrix Scene.self Scene.intf_grid false Scene.world
         = (inr (Handler "intf_ra2ll.grd" Scene.matrix_ll), w') /\
       trace w' = [Removed "intf_ra2ll.grd"; ToNetcdf "intf_ra2ll.grd" "intf_ra2ll"])
  /\ (exists w',
       intf_ll2ra_matrix Scene.self Scene.intf_grid false Scene.world
         = (inr (Handler "intf_ll2ra.grd" Scene.matrix_ra), w') /\
       trace w' = [ToNetcdf "intf_ll2ra.grd" "intf_ll2ra"]).
Proof.
  pose proof (interactive_build_leaves_storage
                Scene.self Scene.intf_grid Scene.world)
    as (H1 & H2 & _ & _ & H3 & H4).
  refine (conj _ (conj _ (conj _ _))).
  - apply H1. vm_compute. reflexivity.
  - apply H2. vm_compute. reflexivity.
  - apply (H3 Scene.matrix_ll). vm_compute. reflexivity.
  - apply (H4 Scene.matrix_ra). vm_compute. reflexivity.
Defined.

(** ** Chunk alignment of the ll2ra matrix *)

Lemma regular_chunks_single size n :
  (length (regular_chunks size n) <= 1)%nat -> regular_chunks size n = [n].
Proof.
  unfold regular_chunks.
  destruct (n =? 0)%nat eqn:Hn0.
  { apply Nat.eqb_eq in Hn0. by subst. }
  apply Nat.eqb_neq in Hn0.
  pose proof (Nat.div_mod_eq n size) as Hdm.
  rewrite length_app, length_replicate.
  destruct (n mod size =? 0)%nat eqn:Hm; simpl; intros Hlen.
  - apply Nat.eqb_eq in Hm.
    destruct (n / size)%nat as [|[|q]] eqn:Hq; try lia.
    simpl. f_equal. lia.
  - destruct (n / size)%nat as [|q] eqn:Hq; try lia.
    simpl. f_equal. lia.
Qed.

Lemma ll2ra_matrix_inv self g M :
  ll2ra_matrix self g = inr M ->
  lm_chunks M = built_chunks self g /\ grid_chunks g = built_chunks self g.
Proof.
  unfold ll2ra_matrix, assert_.
  destruct (bool_decide _ && bool_decide _); [| discriminate].
  simpl. case_bool_decide as Heq; [| discriminate].
  intros [= <-]. simpl. by rewrite Heq.
Qed.

Lemma ll2ra_matrix_mismatch self g :
  grid_chunks g <> built_chunks self g ->
  exists msg, ll2ra_matrix self g = inl (AssertionError msg).
Proof.
  unfold ll2ra_matrix, assert_. intros Hne.
  destruct (bool_decide _ && bool_decide _); [| by eexists].
  simpl. case_bool_decide as Heq; [| by eexists].
  by destruct Hne.
Qed.

Lemma ll2ra_matrix_aligned self g :
  grid_chunks g = built_chunks self g ->
  exists M, ll2ra_matrix self g = inr M.
Proof.
  unfold ll2ra_matrix, assert_, built_chunks. intros Hg.
  rewrite Hg. simpl.
  assert (forall n,
            common_blockdim (regular_chunks (chunksize self) n) [n]
            = regular_chunks (chunksize self) n) as Hc.
  { intros n. unfold common_blockdim.
    destruct (length (regular_chunks (chunksize self) n) <=? 1)%nat eqn:Hl;
      [| reflexivity].
    apply Nat.leb_le in Hl. by rewrite regular_chunks_single. }
  rewrite !Hc. rewrite !bool_decide_eq_true_2 by reflexivity.
  simpl. eauto.
Qed.

(** C5. The matrix that [intf_ll2ra_matrix] returns is chunked exactly as
    the footprint; a footprint chunked otherwise than the matrix is built
    makes the build stop on a failed assertion, with the storage untouched,
    and a footprint chunked alike is accepted. *)
Theorem intf_ll2ra_matrix_chunks self g interactive w :
  (forall b w',
     intf_ll2ra_matrix self g interactive w = (inr b, w') ->
     lm_chunks (built b) = grid_chunks g)
  /\ (grid_chunks g <> built_chunks self g ->
      exists msg,
        intf_ll2ra_matrix self g interactive w = (inl (AssertionError msg), w))
  /\ (grid_chunks g = built_chunks self g ->
      exists b w', intf_ll2ra_matrix self g interactive w = (inr b, w')).
Proof.
  unfold intf_ll2ra_matrix.
  refine (conj _ (conj _ _)).
  - intros b w'. destruct (ll2ra_matrix self g) as [e|M] eqn:HM; [discriminate |].
    apply ll2ra_matrix_inv in HM as [HM Hg].
    destruct interactive; intros [= <- _]; simpl; congruence.
  - intros Hne. destruct (ll2ra_matrix_mismatch self g Hne) as [msg ->]. eauto.
  - intros He. destruct (ll2ra_matrix_aligned self g He) as [M ->].
    destruct interactive; eauto.
Qed.

Lemma intf_ll2ra_matrix_chunks_witness :
  lm_chunks (built (Pending Scene.matrix_ra)) = grid_chunks Scene.intf_grid
  /\ (exists msg,
       intf_ll2ra_matrix Scene.self Scene.intf_grid3 false Scene.world
       = (inl (AssertionError msg), Scene.world))
  /\ (exists b w',
       intf_ll2ra_matrix Scene.self Scene.intf_grid false Scene.world = (inr b, w')).
Proof.
  refine (conj _ (conj _ _)).
  - apply (proj1 (intf_ll2ra_matrix_chunks
                    Scene.self Scene.intf_grid true Scene.world)
             (Pending Scene.matrix_ra) Scene.world).
    vm_compute. reflexivity.
  - apply (proj1 (proj2 (intf_ll2ra_matrix_chunks
                           Scene.self Scene.intf_grid3 false Scene.world))).
    vm_compute. discriminate.
  - apply (proj2 (proj2 (intf_ll2ra_matrix_chunks
                           Scene.self Scene.intf_grid false Scene.world))).
    vm_compute. reflexivity.
Defined.

(** ** Loops, gathers and extrema *)

Lemma mapM_result_Forall2 {A B} (f : A -> result B) l ys :
  mapM_result f l = inr ys <-> Forall2 (fun x y => f x = inr y) l ys.
Proof.
  revert ys. induction l as [|x l IH]; intros ys; simpl.
  - split.
    + intros [= <-]. constructor.
    + intros Hf. by inversion Hf.
  - split.
    + destruct (f x) as [e|y] eqn:Hx; simpl; [discriminate |].
      destruct (mapM_result f l) as [e|ys'] eqn:Hl; simpl; [discriminate |].
      intros [= <-]. constructor; [exact Hx | by apply IH].
    + intros Hf. inversion Hf as [|x' y l' ys' Hx Hl]; subst.
      rewrite Hx. simpl. apply IH in Hl. rewrite Hl. reflexivity.
Qed.

Lemma mapM_result_total {A B} (f : A -> result B) l :
  (forall x, x ∈ l -> exists y, f x = inr y) ->
  exists ys, mapM_result f l = inr ys.
Proof.
  induction l as [|x l IH]; intros Hall; simpl; [by eexists |].
  destruct (Hall x) as [y ->]; [by left |].
  destruct IH as [ys ->]; [intros x' Hx'; apply Hall; by right |].
  simpl. by eexists.
Qed.

Lemma np_getitem_nat {A} (l : list A) (j : nat) a :
  l !! j = Some a -> np_getitem l (Z.of_nat j) = inr a.
Proof.
  intros Hj. pose proof (lookup_lt_Some _ _ _ Hj) as Hlt.
  unfold np_getitem.
  destruct (Z.of_nat j <? 0) eqn:Hneg; [apply Z.ltb_lt in Hneg; lia |].
  replace (0 <=? Z.of_nat j) with true by (symmetry; apply Z.leb_le; lia).
  replace (Z.of_nat j <? Z.of_nat (length l)) with true
    by (symmetry; apply Z.ltb_lt; lia).
  simpl. rewrite Nat2Z.id, Hj. reflexivity.
Qed.

Lemma np_getitem_out {A} (l : list A) (i : Z) :
  Z.of_nat (length l) <= i -> np_getitem l i = inl IndexError.
Proof.
  intros Hi. unfold np_getitem.
  destruct (i <? 0) eqn:Hneg; [apply Z.ltb_lt in Hneg; lia |].
  replace (i <? Z.of_nat (length l)) with false
    by (symmetry; apply Z.ltb_ge; lia).
  by rewrite andb_false_r.
Qed.

Lemma Qmin'_le_l a b : (Qmin' a b <= a)%Q.
Proof.
  unfold Qmin'. destruct (Qle_bool a b) eqn:Hab; [apply Qle_refl |].
  apply Qlt_le_weak, Qnot_le_lt. intros Hle.
  apply Qle_bool_iff in Hle. congruence.
Qed.

Lemma Qmin'_le_r a b : (Qmin' a b <= b)%Q.
Proof.
  unfold Qmin'. destruct (Qle_bool a b) eqn:Hab; [| apply Qle_refl].
  by apply Qle_bool_iff.
Qed.

Lemma Qmax'_ge_l a b : (a <= Qmax' a b)%Q.
Proof.
  unfold Qmax'. destruct (Qle_bool a b) eqn:Hab; [| apply Qle_refl].
  by apply Qle_bool_iff.
Qed.

Lemma Qmax'_ge_r a b : (b <= Qmax' a b)%Q.
Proof.
  unfold Qmax'. destruct (Qle_bool a b) eqn:Hab; [apply Qle_refl |].
  apply Qlt_le_weak, Qnot_le_lt. intros Hle.
  apply Qle_bool_iff in Hle. congruence.
Qed.

(** [a.min()] is a value of the array and bounds every value from below. *)
Lemma array_min_spec l m :
  array_min l = inr m -> m ∈ l /\ forall x, x ∈ l -> (m <= x)%Q.
Proof.
  destruct l as [|a l]; [discriminate |]. simpl. intros [= <-].
  induction l as [|b l [IHin IHle]]; simpl.
  - split; [by left |]. intros x Hx. apply list_elem_of_singleton in Hx as ->.
    apply Qle_refl.
  - split.
    + unfold Qmin' at 1. destruct (Qle_bool b _).
      * right; by left.
      * apply elem_of_cons in IHin as [-> | Hin]; [by left | by do 2 right].
    + intros x Hx.
      apply elem_of_cons in Hx as [-> | Hx].
      * eapply Qle_trans; [apply Qmin'_le_r |]. apply IHle. by left.
      * apply elem_of_cons in Hx as [-> | Hx].
        -- apply Qmin'_le_l.
        -- eapply Qle_trans; [apply Qmin'_le_r |]. apply IHle. by right.
Qed.

Lemma array_max_spec l m :
  array_max l = inr m -> m ∈ l /\ forall x, x ∈ l -> (x <= m)%Q.
Proof.
  destruct l as [|a l]; [discriminate |]. simpl. intros [= <-].
  induction l as [|b l [IHin IHle]]; simpl.
  - split; [by left |]. intros x Hx. apply list_elem_of_singleton in Hx as ->.
    apply Qle_refl.
  - split.
    + unfold Qmax' at 1. destruct (Qle_bool b _).
      * apply elem_of_cons in IHin as [-> | Hin]; [by left | by do 2 right].
      * right; by left.
    + intros x Hx.
      apply elem_of_cons in Hx as [-> | Hx].
      * eapply Qle_trans; [| apply Qmax'_ge_r]. apply IHle. by left.
      * apply elem_of_cons in Hx as [-> | Hx].
        -- apply Qmax'_ge_l.
        -- eapply Qle_trans; [| apply Qmax'_ge_r]. apply IHle. by right.
Qed.

(** ** Nearest-neighbour query *)



Example tree_query_first_of_ties :
  tree_query [(0, 2); (1, 0); (0, 1); (3, 3)]%Q (0, 0)%Q = 1%nat.
Proof. reflexivity. Qed.

(** ** Candidate blocks *)

Lemma elem_of_concat {A} (ls : list (list A)) (x : A) :
  x ∈ concat ls <-> exists l, l ∈ ls /\ x ∈ l.
Proof.
  rewrite list_elem_of_In, in_concat. split.
  - intros (l & Hl & Hx). exists l. by rewrite !list_elem_of_In.
  - intros (l & Hl & Hx). exists l. by rewrite <- !list_elem_of_In.
Qed.

Lemma elem_of_select_blocks extents ymin ymax xmin xmax e :
  e ∈ select_blocks extents ymin ymax xmin xmax
  <-> e ∈ extents /\ ymask ymin ymax e && xmask xmin xmax e = true.
Proof. unfold select_blocks. by rewrite !list_elem_of_In, filter_In. Qed.





Lemma array_min_le_max l m M :
  array_min l = inr m -> array_max l = inr M -> (m <= M)%Q.
Proof.
  intros Hm HM. apply array_min_spec in Hm as [Hin Hle].
  apply array_max_spec in HM as [_ Hge]. by apply Hge.
Qed.


(** ** One chunk of the ll2ra matrix *)

Lemma shape_eqb_refl s : shape_eqb s s = true.
Proof. unfold shape_eqb. by rewrite !Nat.eqb_refl. Qed.

Lemma zip_map_same {A B C} (f : A -> B) (g : A -> C) (l : list A) :
  zip (map f l) (map g l) = map (fun a => (f a, g a)) l.
Proof. induction l as [|a l IH]; simpl; [reflexivity | by rewrite IH]. Qed.

Lemma concat_map_data {A B} (f : A -> B) (loaded : list (ndarray A)) :
  concat (map (fun b => map f (data b)) loaded)
  = map f (concat (map data loaded)).
Proof. by rewrite concat_map, map_map. Qed.

(** The body of [calc_intf_ll2ra_matrix] once the checks, the bounds and the
    loading loop have gone through. *)
Lemma calc_intf_ll2ra_matrix_unfold self azi_ rng_ ymin ymax xmin xmax loaded :
  shape azi_ = shape rng_ ->
  array_min (data azi_) = inr ymin -> array_max (data azi_) = inr ymax ->
  array_min (data rng_) = inr xmin -> array_max (data rng_) = inr xmax ->
  mapM_result (load_block self)
    (select_blocks (trans_blocks_extents self) ymin ymax xmin xmax) = inr loaded ->
  let pts := concat (map data loaded) in
  calc_intf_ll2ra_matrix self azi_ rng_
  = if (length loaded =? 0)%nat then inr (np_full (shape azi_) noindex)
    else
      matrix ← np_take (map idx pts)
                 (map Z.of_nat
                    (map (tree_query (map (fun p => (azi p, rng p)) pts))
                         (zip (data azi_) (data rng_))));
      mret (mk_ndarray (shape azi_) matrix).
Proof.
  intros Hshape Hymin Hymax Hxmin Hxmax Hloaded pts.
  unfold calc_intf_ll2ra_matrix, assert_.
  rewrite Hshape, shape_eqb_refl, Hymin, Hymax, Hxmin, Hxmax. simpl.
  rewrite Hloaded. simpl.
  rewrite length_map, !concat_map_data, zip_map_same. reflexivity.
Qed.

(** C4. When the selection finds no block for a chunk, the chunk is
    returned, not raised, and every one of its cells holds [noindex]. *)
Theorem calc_no_candidate_block self azi_ rng_ ymin ymax xmin xmax :
  shape azi_ = shape rng_ ->
  array_min (data azi_) = inr ymin -> array_max (data azi_) = inr ymax ->
  array_min (data rng_) = inr xmin -> array_max (data rng_) = inr xmax ->
  select_blocks (trans_blocks_extents self) ymin ymax xmin xmax = [] ->
  exists M,
    calc_intf_ll2ra_matrix self azi_ rng_ = inr M /\
    shape M = shape azi_ /\
    data M = replicate ((shape azi_).1 * (shape azi_).2) noindex.
Proof.
  intros Hshape Hymin Hymax Hxmin Hxmax Hnone.
  rewrite (calc_intf_ll2ra_matrix_unfold self azi_ rng_ ymin ymax xmin xmax [])
    by (try done; by rewrite Hnone).
  simpl. eexists. split; [reflexivity |]. split; reflexivity.
Qed.

Lemma calc_no_candidate_block_witness :
  exists M,
    calc_intf_ll2ra_matrix Scene.self Scene.gap_azi Scene.gap_rng = inr M /\
    shape M = (2, 2)%nat /\
    data M = replicate (2 * 2) noindex.
Proof.
  apply (calc_no_candidate_block Scene.self Scene.gap_azi Scene.gap_rng
           20 21 20 21); vm_compute; reflexivity.
Defined.




Example calc_scene :
  calc_intf_ll2ra_matrix Scene.self Scene.chunk_azi Scene.chunk_rng
  = inr (mk_ndarray (2, 2)%nat [0; 0; 0; 0]).
Proof. vm_compute. reflexivity. Qed.

(** ** Resampling *)

Lemma np_getitem_error {A} (l : list A) i e :
  np_getitem l i = inl e -> e = IndexError.
Proof.
  unfold np_getitem.
  destruct (_ && _); [| by intros [= <-]].
  destruct (l !! _); [discriminate | by intros [= <-]].
Qed.

Lemma mapM_result_raises {A B} (f : A -> result B) l x e :
  (forall y e', f y = inl e' -> e' = e) ->
  x ∈ l -> f x = inl e -> mapM_result f l = inl e.
Proof.
  intros Honly Hx Hfx. induction l as [|a l IH]; [by apply elem_of_nil in Hx |].
  simpl. destruct (f a) as [e'|b] eqn:Ha; simpl.
  - by rewrite (Honly a e' Ha).
  - apply elem_of_cons in Hx as [-> | Hx]; [congruence |].
    by rewrite (IH Hx).
Qed.

(** The index that [ra2ll] looks up for a cell of the matrix. *)
Lemma valid_index_in_range (grid : list fval) m :
  grid <> [] ->
  m = noindex \/ 0 <= m < Z.of_nat (length grid) ->
  0 <= (if negb (m =? noindex) then m else 0) < Z.of_nat (length grid).
Proof.
  intros Hne Hm.
  assert (0 < Z.of_nat (length grid)) by (destruct grid; [done | cbn [length]; lia]).
  destruct (Z.eqb_spec m noindex) as [Heq | Hneq]; cbn [negb]; [lia |].
  destruct Hm as [Hm | Hm]; [contradiction | exact Hm].
Qed.

Lemma np_getitem_in_range {A} (l : list A) i :
  0 <= i < Z.of_nat (length l) ->
  exists a, l !! Z.to_nat i = Some a /\ np_getitem l i = inr a.
Proof.
  intros Hi.
  destruct (lookup_lt_is_Some_2 l (Z.to_nat i)) as [a Ha]; [lia |].
  exists a. split; [exact Ha |].
  rewrite <- (Z2Nat.id i) at 1 by lia. by apply np_getitem_nat.
Qed.

Lemma ra2ll_spec matrix_ra2ll grid :
  data grid <> [] ->
  (forall m, m ∈ data matrix_ra2ll ->
             m = noindex \/ 0 <= m < Z.of_nat (length (data grid))) ->
  exists out,
    ra2ll matrix_ra2ll grid = inr out /\
    shape out = shape matrix_ra2ll /\
    length (data out) = length (data matrix_ra2ll) /\
    forall k m,
      data matrix_ra2ll !! k = Some m ->
      if m =? noindex then data out !! k = Some FNaN
      else exists v, data grid !! Z.to_nat m = Some v /\ data out !! k = Some v.
Proof.
  intros Hne Hvalid. unfold ra2ll, np_take.
  set (valid := fun m : Z => if negb (m =? noindex) then m else 0).
  destruct (mapM_result_total (np_getitem (data grid))
              (map valid (data matrix_ra2ll))) as [picked Hpicked].
  { intros z Hz. apply list_elem_of_fmap in Hz as (m & -> & Hm).
    destruct (np_getitem_in_range (data grid) (valid m)) as (a & _ & Ha);
      [apply valid_index_in_range; auto | eauto]. }
  rewrite Hpicked. cbn [mbind result_bind mret result_ret].
  apply mapM_result_Forall2 in Hpicked.
  pose proof (Forall2_length _ _ _ Hpicked) as Hlen.
  rewrite length_map in Hlen.
  eexists. split; [reflexivity |]. split; [reflexivity |]. cbn [data].
  split; [by rewrite length_zip_with_l_eq |].
  intros k m Hk.
  assert (map valid (data matrix_ra2ll) !! k = Some (valid m)) as Hvk
    by (by rewrite map_lookup, Hk).
  destruct (Forall2_lookup_l _ _ _ _ _ Hpicked Hvk) as (v & Hv & Hgot).
  rewrite lookup_zip_with, Hk, Hv. cbn [mbind option_bind].
  assert (m ∈ data matrix_ra2ll) as Hm by (apply list_elem_of_lookup; eauto).
  destruct (np_getitem_in_range (data grid) (valid m)) as (a & Ha & Hga);
    [apply valid_index_in_range; auto |].
  rewrite Hga in Hgot. injection Hgot as <-.
  unfold valid in Ha.
  destruct (m =? noindex); cbn [negb] in *; [reflexivity | eauto].
Qed.

Lemma helper_check_present grids a b :
  a ∈ dims grids ->
  helper_check {[ "grids" := grids ]} a b = inr false.
Proof.
  intros Ha. unfold helper_check, dims_of.
  rewrite lookup_singleton_eq. cbn [mbind result_bind mret result_ret].
  by rewrite bool_decide_eq_true_2.
Qed.

Lemma helper_check_missing grids a b :
  a ∉ dims grids ->
  helper_check {[ "grids" := grids ]} a b = inl (NameError "grid").
Proof.
  intros Ha. unfold helper_check, dims_of.
  rewrite lookup_singleton_eq. cbn [mbind result_bind mret result_ret].
  rewrite bool_decide_eq_false_2 by done. cbn [negb].
  rewrite lookup_singleton_ne by done. reflexivity.
Qed.


Example intf_ra2ll_ones :
  intf_ra2ll Scene.interp_id Scene.matrix_ll2ra Scene.matrix_ra2ll Scene.ones
  = (inr (mk_dataarray ["lat"; "lon"]
            (mk_ndarray (2, 3)%nat
               [FVal 1; FNaN; FVal 1; FVal 1; FNaN; FVal 1])), []).
Proof. vm_compute. reflexivity. Qed.


(** C10. A matrix that holds [noindex] in some cell makes the gather of
    [ll2ra] leave every grid of fewer than [noindex + 1] values: [ll2ra]
    raises [IndexError], and so does [intf_ll2ra] on a grid that carries the
    axis [lat]; no cell is marked missing. *)
Theorem intf_ll2ra_sentinel_raises interp_like trans_dat_shape matrix_ll2ra grids :
  let grid := interp_like (values grids) trans_dat_shape in
  noindex ∈ data matrix_ll2ra ->
  Z.of_nat (length (data grid)) < noindex + 1 ->
  ll2ra matrix_ll2ra grid = inl IndexError
  /\ ("lat" ∈ dims grids ->
      intf_ll2ra interp_like trans_dat_shape matrix_ll2ra grids
      = (inl IndexError, [])).
Proof.
  intros grid Hin Hsmall.
  assert (ll2ra matrix_ll2ra grid = inl IndexError) as Hraise.
  { unfold ll2ra, np_take.
    rewrite (mapM_result_raises (np_getitem (data grid)) (data matrix_ll2ra)
               noindex IndexError); [reflexivity | | exact Hin |].
    - intros y e'. apply np_getitem_error.
    - apply np_getitem_out. lia. }
  split; [exact Hraise |].
  intros Hlat. unfold intf_ll2ra. rewrite (helper_check_present _ _ _ Hlat).
  fold grid. by rewrite Hraise.
Qed.

Lemma intf_ll2ra_sentinel_raises_witness :
  ll2ra Scene.matrix_ll2ra_gap (values Scene.geo) = inl IndexError
  /\ ("lat" ∈ dims Scene.geo ->
      intf_ll2ra Scene.interp_id (2, 2)%nat Scene.matrix_ll2ra_gap Scene.geo
      = (inl IndexError, [])).
Proof.
  apply (intf_ll2ra_sentinel_raises Scene.interp_id (2, 2)%nat
           Scene.matrix_ll2ra_gap Scene.geo).
  - unfold Scene.matrix_ll2ra_gap. cbn [data]. do 2 right. by left.
  - vm_compute. reflexivity.
Defined.

Example intf_ll2ra_scene :
  intf_ll2ra Scene.interp_id (2, 2)%nat Scene.matrix_ll2ra Scene.geo
  = (inr (mk_dataarray ["y"; "x"]
            (mk_ndarray (4, 4)%nat
               (map FVal [5; 5; 6; 6; 5; 5; 6; 6; 7; 7; 8; 8; 7; 7; 8; 8]%Q))), []).
Proof. vm_compute. reflexivity. Qed.

(** ** The helper check *)

(** C6, on the code. A grid without the axis [y] (for [intf_ra2ll]) or [lat]
    (for [intf_ll2ra]) makes the helper check raise [NameError] on the name
    [grid], which is not bound there; the note is printed on no input, and
    the input is never handed back. *)
Theorem helper_check_raises interp_like shp matrix_ll2ra matrix_ra2ll grids :
  ("y" ∉ dims grids ->
     intf_ra2ll interp_like matrix_ll2ra matrix_ra2ll grids
     = (inl (NameError "grid"), []))
  /\ ("lat" ∉ dims grids ->
     intf_ll2ra interp_like shp matrix_ll2ra grids
     = (inl (NameError "grid"), []))
  /\ (intf_ra2ll interp_like matrix_ll2ra matrix_ra2ll grids).2 = []
  /\ (intf_ll2ra interp_like shp matrix_ll2ra grids).2 = [].
Proof.
  unfold intf_ra2ll, intf_ll2ra.
  refine (conj _ (conj _ (conj _ _))).
  - intros Hy. by rewrite (helper_check_missing _ _ _ Hy).
  - intros Hlat. by rewrite (helper_check_missing _ _ _ Hlat).
  - destruct (decide ("y" ∈ dims grids)) as [Hy | Hy].
    + by rewrite (helper_check_present _ _ _ Hy).
    + by rewrite (helper_check_missing _ _ _ Hy).
  - destruct (decide ("lat" ∈ dims grids)) as [Hy | Hy].
    + by rewrite (helper_check_present _ _ _ Hy).
    + by rewrite (helper_check_missing _ _ _ Hy).
Qed.

Lemma helper_check_raises_witness :
  intf_ra2ll Scene.interp_id Scene.matrix_ll2ra Scene.matrix_ra2ll Scene.geo
    = (inl (NameError "grid"), [])
  /\ intf_ll2ra Scene.interp_id (2, 2)%nat Scene.matrix_ll2ra Scene.ones
    = (inl (NameError "grid"), []).
Proof.
  pose proof (helper_check_raises Scene.interp_id (2, 2)%nat Scene.matrix_ll2ra
                Scene.matrix_ra2ll Scene.geo) as (H1 & _).
  pose proof (helper_check_raises Scene.interp_id (2, 2)%nat Scene.matrix_ll2ra
                Scene.matrix_ra2ll Scene.ones) as (_ & H2 & _).
  split; [apply H1 | apply H2]; apply (bool_decide_unpack _); vm_compute; exact I.
Defined.

(** ** The footprint *)

Lemma nanmin_column stack c x l y :
  column_min stack c x -> l !! c = Some y ->
  column_min (stack ++ [l]) c (nanmin x y).
Proof.
  intros Hx Hy.
  assert (forall l' v, l' ∈ stack ++ [l] -> l' !! c = Some v ->
            (l' ∈ stack /\ l' !! c = Some v) \/ v = y) as Hsplit.
  { intros l' v Hl' Hv. apply elem_of_app in Hl' as [Hl' | Hl']; [by left |].
    apply list_elem_of_singleton in Hl' as ->. right. congruence. }
  destruct x as [|p], y as [|q]; simpl in *.
  - intros l' v Hl' Hv. destruct (Hsplit l' v Hl' Hv) as [[H1 H2] | ->]; eauto.
  - split.
    + exists l. split; [apply elem_of_app; right; by left | done].
    + intros l' q' Hl' Hv.
      destruct (Hsplit l' _ Hl' Hv) as [[H1 H2] | [= ->]]; [| apply Qle_refl].
      by specialize (Hx l' _ H1 H2).
  - destruct Hx as [(l0 & Hl0 & Hp) Hmin]. split.
    + exists l0. split; [apply elem_of_app; by left | done].
    + intros l' q' Hl' Hv.
      destruct (Hsplit l' _ Hl' Hv) as [[H1 H2] | ?]; [eauto | discriminate].
  - destruct Hx as [(l0 & Hl0 & Hp) Hmin].
    destruct (Qle_bool p q) eqn:Hpq.
    + apply Qle_bool_iff in Hpq. split.
      * exists l0. split; [apply elem_of_app; by left | done].
      * intros l' q' Hl' Hv.
        destruct (Hsplit l' _ Hl' Hv) as [[H1 H2] | [= ->]]; eauto.
    + assert (q < p)%Q as Hqp.
      { apply Qnot_le_lt. intros H. apply Qle_bool_iff in H. congruence. }
      split.
      * exists l. split; [apply elem_of_app; right; by left | done].
      * intros l' q' Hl' Hv.
        destruct (Hsplit l' _ Hl' Hv) as [[H1 H2] | [= ->]]; [| apply Qle_refl].
        specialize (Hmin l' q' H1 H2). lra.
Qed.

Lemma foldl_nanmin_column layers :
  forall acc stack,
    (forall c a, acc !! c = Some a -> column_min stack c a) ->
    forall c a,
      foldl (zip_with nanmin) acc layers !! c = Some a ->
      column_min (stack ++ layers) c a.
Proof.
  induction layers as [|l layers IH]; intros acc stack Hacc c a; simpl.
  - rewrite app_nil_r. apply Hacc.
  - intros Ha.
    replace (stack ++ l :: layers) with ((stack ++ [l]) ++ layers)
      by (by rewrite <- app_assoc).
    apply (IH (zip_with nanmin acc l)); [| exact Ha].
    intros c' a' Hz. apply lookup_zip_with_Some in Hz as (x & y & -> & Hx & Hy).
    apply nanmin_column; auto.
Qed.

Lemma foldl_nanmin_length layers n :
  forall acc,
    length acc = n -> (forall l, l ∈ layers -> length l = n) ->
    length (foldl (zip_with nanmin) acc layers) = n.
Proof.
  induction layers as [|l layers IH]; intros acc Hacc Hall; simpl; [done |].
  apply IH.
  - rewrite length_zip_with, Hacc, (Hall l) by (by left). lia.
  - intros l' Hl'. apply Hall. by right.
Qed.

(** C9, as amended. The footprint is the minimum over the pairs, missing
    values skipped, cast to boolean: a cell is false exactly when some pair
    holds the value zero there and no pair holds a negative value there, and
    true otherwise, also where no pair has data. *)
Theorem geocode_intf_grid_cell stack n :
  stack <> [] ->
  (forall l, l ∈ stack -> length l = n) ->
  exists fp,
    geocode_intf_grid stack = inr fp /\
    length fp = n /\
    forall c b,
      fp !! c = Some b ->
      (b = false <->
       (exists l q, l ∈ stack /\ l !! c = Some (FVal q) /\ (q == 0)%Q) /\
       (forall l q, l ∈ stack -> l !! c = Some (FVal q) -> (0 <= q)%Q)).
Proof.
  intros Hne Hlen. destruct stack as [|layer layers]; [done |].
  unfold geocode_intf_grid, min_pair. cbn [mbind result_bind mret result_ret].
  eexists. split; [reflexivity |]. split.
  - rewrite length_map. apply foldl_nanmin_length.
    + apply Hlen. by left.
    + intros l Hl. apply Hlen. by right.
  - intros c b Hb. apply list_lookup_fmap_Some in Hb as (a & -> & Ha).
    assert (column_min (layer :: layers) c a) as Hcol.
    { apply (foldl_nanmin_column layers layer [layer]); [| exact Ha].
      intros c' a' Ha'. destruct a' as [|m]; simpl.
      - intros l v Hl Hv. apply list_elem_of_singleton in Hl as ->. congruence.
      - split; [exists layer; split; [by left | done] |].
        intros l q Hl Hq. apply list_elem_of_singleton in Hl as ->.
        rewrite Ha' in Hq. injection Hq as ->. apply Qle_refl. }
    destruct a as [|m]; simpl in *.
    + split; [discriminate |].
      intros [(l & q & Hl & Hq & _) _]. by specialize (Hcol l _ Hl Hq).
    + destruct Hcol as [(l0 & Hl0 & Hm) Hmin]. split.
      * intros Hz. apply negb_false_iff, Qeq_bool_iff in Hz. split.
        -- by exists l0, m.
        -- intros l q Hl Hq. specialize (Hmin l q Hl Hq). lra.
      * intros [(l & q & Hl & Hq & Hq0) Hpos].
        apply negb_false_iff, Qeq_bool_iff.
        specialize (Hmin l q Hl Hq). specialize (Hpos l0 m Hl0 Hm). lra.
Qed.

Lemma geocode_intf_grid_cell_witness :
  exists fp,
    geocode_intf_grid [[FNaN; FVal 0; FVal 2]; [FNaN; FVal 1; FVal (-1)]] = inr fp /\
    length fp = 3%nat /\
    forall c b,
      fp !! c = Some b ->
      (b = false <->
       (exists l q,
          l ∈ [[FNaN; FVal 0; FVal 2]; [FNaN; FVal 1; FVal (-1)]] /\
          l !! c = Some (FVal q) /\ (q == 0)%Q) /\
       (forall l q,
          l ∈ [[FNaN; FVal 0; FVal 2]; [FNaN; FVal 1; FVal (-1)]] ->
          l !! c = Some (FVal q) -> (0 <= q)%Q)).
Proof.
  apply (geocode_intf_grid_cell
           [[FNaN; FVal 0; FVal 2]; [FNaN; FVal 1; FVal (-1)]] 3).
  - discriminate.
  - intros l Hl.
    repeat (apply elem_of_cons in Hl as [-> | Hl]); [reflexivity .. |].
    by apply elem_of_nil in Hl.
Defined.

(** C9, as stated, fails on a stack of one pair: the footprint is true at a
    cell where the pair has no data, and false at a cell where the pair has
    the value zero. *)
Lemma geocode_intf_grid_not_any_present :
  geocode_intf_grid [[FNaN; FVal 0]] = inr [true; false]
  /\ ~ present_at [[FNaN; FVal 0]] 0
  /\ present_at [[FNaN; FVal 0]] 1.
Proof.
  split; [reflexivity |]. split.
  - intros (l & q & Hl & Hq). apply list_elem_of_singleton in Hl as ->.
    discriminate.
  - exists [FNaN; FVal 0], 0%Q. split; [by left | reflexivity].
Qed.

(** * Further properties *)

(** ** The ra2ll matrix: degenerate footprints and rounding *)

(** X1. A footprint with an empty axis makes [intf_ra2ll_matrix] raise
    [ValueError] (no minimum), one with a single coordinate on an axis
    [IndexError] (no first difference), rows before columns; nothing is
    removed or written, also when the build is to be saved. *)
Theorem intf_ra2ll_matrix_degenerate self g interactive w :
  (grid_y g = [] ->
     intf_ra2ll_matrix self g interactive w = (inl ValueError, w))
  /\ ((exists y0, grid_y g = [y0]) ->
     intf_ra2ll_matrix self g interactive w = (inl IndexError, w))
  /\ ((2 <= length (grid_y g))%nat -> grid_x g = [] ->
     intf_ra2ll_matrix self g interactive w = (inl ValueError, w))
  /\ ((2 <= length (grid_y g))%nat -> (exists x0, grid_x g = [x0]) ->
     intf_ra2ll_matrix self g interactive w = (inl IndexError, w)).
Proof.
  unfold intf_ra2ll_matrix, ra2ll_matrix.
  refine (conj _ (conj _ (conj _ _))).
  - by intros ->.
  - by intros [y0 ->].
  - intros Hy ->. destruct (grid_y g) as [|y0 [|y1 ys]]; simpl in Hy; try lia.
    reflexivity.
  - intros Hy [x0 ->]. destruct (grid_y g) as [|y0 [|y1 ys]]; simpl in Hy; try lia.
    reflexivity.
Qed.

Lemma intf_ra2ll_matrix_degenerate_witness :
  intf_ra2ll_matrix Scene.self Scene2.no_rows false Scene.world
    = (inl ValueError, Scene.world)
  /\ intf_ra2ll_matrix Scene.self Scene2.one_row false Scene.world
    = (inl IndexError, Scene.world)
  /\ intf_ra2ll_matrix Scene.self Scene2.no_cols false Scene.world
    = (inl ValueError, Scene.world)
  /\ intf_ra2ll_matrix Scene.self Scene2.one_col false Scene.world
    = (inl IndexError, Scene.world).
Proof.
  refine (conj _ (conj _ (conj _ _))).
  - apply (proj1 (intf_ra2ll_matrix_degenerate
                    Scene.self Scene2.no_rows false Scene.world)).
    reflexivity.
  - apply (proj1 (proj2 (intf_ra2ll_matrix_degenerate
                           Scene.self Scene2.one_row false Scene.world))).
    by eexists.
  - apply (proj1 (proj2 (proj2 (intf_ra2ll_matrix_degenerate
                                  Scene.self Scene2.no_cols false Scene.world))));
      [simpl; lia | reflexivity].
  - apply (proj2 (proj2 (proj2 (intf_ra2ll_matrix_degenerate
                                  Scene.self Scene2.one_col false Scene.world))));
      [simpl; lia | by eexists].
Defined.

(** Rounding takes every rational nearer than one half to an integer to
    that integer. *)
Lemma np_round_near q i :
  (inject_Z i - (1 # 2) < q)%Q -> (q < inject_Z i + (1 # 2))%Q ->
  np_round q = i.
Proof.
  intros Hlo Hhi. unfold np_round.
  pose proof (Qfloor_le q) as Hf1. pose proof (Qlt_floor q) as Hf2.
  rewrite inject_Z_plus in Hf2. change (inject_Z 1) with 1%Q in Hf2.
  remember (Qfloor q) as f eqn:Hf. clear Hf.
  assert (f = i \/ f = i - 1) as [-> | ->].
  { destruct (Z_le_gt_dec f (i - 2)) as [Hle | Hgt].
    - apply (inject_Z_le_plus f i (-2)) in Hle.
      change (inject_Z (-2)) with (-2 # 1)%Q in Hle. lra.
    - destruct (Z_le_gt_dec (i + 1) f) as [Hle' | Hgt']; [| lia].
      assert (i <= f + -1) as Hle'' by lia.
      apply inject_Z_le_plus in Hle''.
      change (inject_Z (-1)) with (-1 # 1)%Q in Hle''. lra. }
  - assert (q - inject_Z i < 1 # 2)%Q as Hlt by lra.
    by rewrite (proj1 (Qlt_alt _ _) Hlt).
  - assert (inject_Z (i - 1) == inject_Z i - 1)%Q as Hi.
    { unfold Z.sub. rewrite inject_Z_plus. reflexivity. }
    assert (1 # 2 < q - inject_Z (i - 1))%Q as Hgt by (rewrite Hi; lra).
    rewrite (proj1 (Qgt_alt _ _) Hgt). lia.
Qed.

(** X3. A point whose fractional row, as computed in float64 (the rounded
    difference to the first row coordinate, divided by the row step and
    rounded again), lies within one half of the row [i], and whose
    fractional column, computed the same way, lies within one half of the
    column [j] of a footprint cell, gets the flat index [i*width + j] of
    that cell, on a footprint of at most 2^32 cells. *)
Theorem intf_ra2ll_matrix_nearest_cell
    self g interactive w ymin dy xmin dx b w' iy ix blk k p i j fy fx :
  array_min (grid_y g) = inr ymin -> diff0 (grid_y g) = inr dy ->
  array_min (grid_x g) = inr xmin -> diff0 (grid_x g) = inr dx ->
  Z.of_nat (length (grid_x g)) * Z.of_nat (length (grid_y g)) <= 2 ^ 32 ->
  intf_ra2ll_matrix self g interactive w = (inr b, w') ->
  block_at (trans_dat self) iy ix = Some blk -> data blk !! k = Some p ->
  0 <= i < Z.of_nat (length (grid_y g)) ->
  0 <= j < Z.of_nat (length (grid_x g)) ->
  float_div (fsub (azi p) ymin) dy = Some fy ->
  float_div (fsub (rng p) xmin) dx = Some fx ->
  (inject_Z i - (1 # 2) < fy)%Q -> (fy < inject_Z i + (1 # 2))%Q ->
  (inject_Z j - (1 # 2) < fx)%Q -> (fx < inject_Z j + (1 # 2))%Q ->
  exists out,
    block_at (built b) iy ix = Some out /\
    data out !! k = Some (i * Z.of_nat (length (grid_x g)) + j).
Proof.
  intros Hymin Hdy Hxmin Hdx Hsize Hrun Hblk Hp Hi Hj Hfy Hfx Hi1 Hi2 Hj1 Hj2.
  apply intf_ra2ll_matrix_inv in Hrun.
  apply ra2ll_matrix_inv in Hrun
    as (ymin' & dy' & xmin' & dx' & E1 & E2 & E3 & E4 & HM).
  rewrite Hymin in E1. rewrite Hdy in E2. rewrite Hxmin in E3. rewrite Hdx in E4.
  injection E1 as <-. injection E2 as <-. injection E3 as <-. injection E4 as <-.
  rewrite HM, block_at_map, Hblk. simpl.
  eexists. split; [reflexivity |]. simpl.
  rewrite map_lookup, Hp. simpl. f_equal.
  unfold trans_idx. rewrite Hfy, Hfx.
  cbn [fmap option_fmap option_map].
  rewrite (np_round_near _ i Hi1 Hi2), (np_round_near _ j Hj1 Hj2).
  change (matrix_ll_at (length (grid_y g)) (length (grid_x g)) (Some i) (Some j)
          = i * Z.of_nat (length (grid_x g)) + j).
  rewrite matrix_ll_at_some_exact by exact Hsize.
  unfold on_grid.
  replace (0 <=? i) with true by (symmetry; apply Z.leb_le; lia).
  replace (i <? Z.of_nat (length (grid_y g))) with true
    by (symmetry; apply Z.ltb_lt; lia).
  replace (0 <=? j) with true by (symmetry; apply Z.leb_le; lia).
  replace (j <? Z.of_nat (length (grid_x g))) with true
    by (symmetry; apply Z.ltb_lt; lia).
  reflexivity.
Qed.

Lemma intf_ra2ll_matrix_nearest_cell_witness :
  exists out,
    block_at (built (Pending [[mk_ndarray (1, 2)%nat [7; 8]]])) 0 0 = Some out /\
    data out !! 0%nat = Some (1 * Z.of_nat (length (grid_x Scene.intf_grid)) + 3).
Proof.
  apply (intf_ra2ll_matrix_nearest_cell Scene2.off_nodes Scene.intf_grid true
           Scene.world 0 1 0 1 (Pending [[mk_ndarray (1, 2)%nat [7; 8]]])
           Scene.world 0 0 (mk_ndarray (1, 2)%nat
              [mk_point (5 # 4) (23 # 8) 0; mk_point (5 # 2) (-3 # 8) 1])
           0 (mk_point (5 # 4) (23 # 8) 0) 1 3 (5 # 4) (23 # 8));
    try (vm_compute; reflexivity);
    try (vm_compute; discriminate);
    try (simpl; lia).
Defined.

(** ** Persistence: what a saved build does to the storage *)

Lemma files_write path name w :
  let w1 := if os_path_exists path w then os_remove path w else w in
  files (to_netcdf path name w1) = files w ∪ {[path]}.
Proof.
  unfold os_path_exists. case_bool_decide as Hin; simpl; [| reflexivity].
  apply set_eq. intros x.
  rewrite !elem_of_union, elem_of_difference, !elem_of_singleton.
  destruct (decide (x = path)) as [-> | Hne]; tauto.
Qed.

(** X4. A saved build ([interactive=False]) of either matrix that goes
    through leaves in the storage exactly the files that were there and its
    own artifact: no other file is removed or created.  *)
Theorem saved_build_touches_one_file self g w :
  (forall b w',
     intf_ra2ll_matrix self g false w = (inr b, w') ->
     files w' = files w ∪ {[get_filenames self "intf_ra2ll"]})
  /\ (forall b w',
     intf_ll2ra_matrix self g false w = (inr b, w') ->
     files w' = files w ∪ {[get_filenames self "intf_ll2ra"]}).
Proof.
  unfold intf_ra2ll_matrix, intf_ll2ra_matrix. split.
  - intros b w'. destruct (ra2ll_matrix self g); [discriminate |].
    intros [= _ <-]. apply files_write.
  - intros b w'. destruct (ll2ra_matrix self g); [discriminate |].
    intros [= _ <-]. apply files_write.
Qed.

Lemma saved_build_touches_one_file_witness :
  files (to_netcdf "intf_ll2ra.grd" "intf_ll2ra" Scene.world)
  = files Scene.world ∪ {[get_filenames Scene.self "intf_ll2ra"]}.
Proof.
  apply (proj2 (saved_build_touches_one_file
                  Scene.self Scene.intf_grid Scene.world)
           (Handler "intf_ll2ra.grd" Scene.matrix_ra)).
  vm_compute. reflexivity.
Defined.

(** X5. Saving the same build twice: the second run returns the same
    handler, removes the artifact of the first and opens it anew, and leaves
    the set of files as the first run left it. *)
Theorem saved_build_twice self g w b w1 :
  intf_ra2ll_matrix self g false w = (inr b, w1) ->
  let f := get_filenames self "intf_ra2ll" in
  exists w2,
    intf_ra2ll_matrix self g false w1 = (inr b, w2) /\
    files w2 = files w1 /\
    trace w2 = trace w1 ++ [Removed f; ToNetcdf f "intf_ra2ll"].
Proof.
  intros Hrun f. unfold intf_ra2ll_matrix in *.
  destruct (ra2ll_matrix self g) as [e|M]; [discriminate |].
  injection Hrun as <- <-. fold f.
  set (w1 := to_netcdf f "intf_ra2ll"
               (if os_path_exists f w then os_remove f w else w)).
  assert (f ∈ files w1) as Hin.
  { unfold w1. rewrite files_write. apply elem_of_union. right.
    by apply elem_of_singleton. }
  assert (os_path_exists f w1 = true) as Hex
    by (unfold os_path_exists; by apply bool_decide_eq_true_2).
  eexists. split; [reflexivity |]. rewrite Hex. simpl. split.
  - apply set_eq. intros x.
    rewrite elem_of_union, elem_of_difference, !elem_of_singleton.
    destruct (decide (x = f)) as [-> | Hne]; tauto.
  - by rewrite <- app_assoc.
Qed.

Lemma saved_build_twice_witness :
  exists w1 w2,
    intf_ra2ll_matrix Scene.self Scene.intf_grid false Scene.world
      = (inr (Handler "intf_ra2ll.grd" Scene.matrix_ll), w1) /\
    intf_ra2ll_matrix Scene.self Scene.intf_grid false w1
      = (inr (Handler "intf_ra2ll.grd" Scene.matrix_ll), w2) /\
    files w2 = files w1 /\
    trace w2 = trace w1 ++ [Removed "intf_ra2ll.grd";
                            ToNetcdf "intf_ra2ll.grd" "intf_ra2ll"].
Proof.
  eexists.
  assert (intf_ra2ll_matrix Scene.self Scene.intf_grid false Scene.world
          = (inr (Handler "intf_ra2ll.grd" Scene.matrix_ll),
             to_netcdf "intf_ra2ll.grd" "intf_ra2ll"
               (os_remove "intf_ra2ll.grd" Scene.world))) as Hfirst
    by (vm_compute; reflexivity).
  destruct (saved_build_twice Scene.self Scene.intf_grid Scene.world _ _ Hfirst)
    as (w2 & H2 & Hfiles & Htrace).
  exists w2. split; [exact Hfirst |]. split; [exact H2 |]. split; assumption.
Defined.

(** ** One chunk of the ll2ra matrix: errors, shape and provenance *)

Lemma shape_eqb_true s t : shape_eqb s t = true -> s = t.
Proof.
  unfold shape_eqb. destruct s, t. simpl.
  intros [H1 H2]%andb_prop. apply Nat.eqb_eq in H1, H2. by subst.
Qed.

Lemma shape_eqb_false s t : s <> t -> shape_eqb s t = false.
Proof.
  intros Hne. destruct (shape_eqb s t) eqn:E; [| reflexivity].
  by apply shape_eqb_true in E.
Qed.

Lemma load_block_error self e err :
  load_block self e = inl err -> err = IndexError.
Proof. unfold load_block. destruct (block_at _ _ _); [discriminate | by intros [= <-]]. Qed.

(** X6. The checks of [calc_intf_ll2ra_matrix]: arrays of different shapes
    raise [AssertionError]; an empty chunk raises [ValueError] (it has no
    minimum); a selected row of the table that names a block the transform
    dataset lacks raises [IndexError]. *)
Theorem calc_intf_ll2ra_matrix_errors self azi_ rng_ :
  (shape azi_ <> shape rng_ ->
     exists msg, calc_intf_ll2ra_matrix self azi_ rng_ = inl (AssertionError msg))
  /\ (shape azi_ = shape rng_ -> data azi_ = [] ->
     calc_intf_ll2ra_matrix self azi_ rng_ = inl ValueError)
  /\ (forall ymin ymax xmin xmax e,
       shape azi_ = shape rng_ ->
       array_min (data azi_) = inr ymin -> array_max (data azi_) = inr ymax ->
       array_min (data rng_) = inr xmin -> array_max (data rng_) = inr xmax ->
       e ∈ select_blocks (trans_blocks_extents self) ymin ymax xmin xmax ->
       block_at (trans_dat self) (blockRow e) (blockCol e) = None ->
       calc_intf_ll2ra_matrix self azi_ rng_ = inl IndexError).
Proof.
  refine (conj _ (conj _ _)).
  - intros Hne. unfold calc_intf_ll2ra_matrix, assert_.
    rewrite (shape_eqb_false _ _ Hne). by eexists.
  - intros Hshape Hempty. unfold calc_intf_ll2ra_matrix, assert_.
    by rewrite Hshape, shape_eqb_refl, Hempty.
  - intros ymin ymax xmin xmax e Hshape Hymin Hymax Hxmin Hxmax He Hnone.
    unfold calc_intf_ll2ra_matrix, assert_.
    rewrite Hshape, shape_eqb_refl, Hymin, Hymax, Hxmin, Hxmax.
    cbn [mbind result_bind].
    rewrite (mapM_result_raises (load_block self) _ e IndexError);
      [reflexivity | | exact He |].
    + intros y e'. apply load_block_error.
    + unfold load_block. by rewrite Hnone.
Qed.

Lemma calc_intf_ll2ra_matrix_errors_witness :
  (exists msg,
     calc_intf_ll2ra_matrix Scene.self Scene.chunk_azi Scene3.row_chunk
     = inl (AssertionError msg))
  /\ calc_intf_ll2ra_matrix Scene.self Scene3.empty_chunk Scene3.empty_chunk
     = inl ValueError
  /\ calc_intf_ll2ra_matrix Scene3.stale Scene.chunk_azi Scene.chunk_rng
     = inl IndexError.
Proof.
  refine (conj _ (conj _ _)).
  - apply (proj1 (calc_intf_ll2ra_matrix_errors
                    Scene.self Scene.chunk_azi Scene3.row_chunk)).
    vm_compute. discriminate.
  - apply (proj1 (proj2 (calc_intf_ll2ra_matrix_errors
                           Scene.self Scene3.empty_chunk Scene3.empty_chunk)));
      reflexivity.
  - apply (proj2 (proj2 (calc_intf_ll2ra_matrix_errors
                           Scene3.stale Scene.chunk_azi Scene.chunk_rng))
             0%Q 1%Q 0%Q 1%Q (mk_extent 1 0 0 3 0 3));
      try (vm_compute; reflexivity).
    vm_compute. right. left.
Defined.

(** What [calc_intf_ll2ra_matrix] went through when it returns. *)
Lemma calc_intf_ll2ra_matrix_inv self azi_ rng_ M :
  calc_intf_ll2ra_matrix self azi_ rng_ = inr M ->
  shape azi_ = shape rng_ /\
  exists ymin ymax xmin xmax loaded,
    array_min (data azi_) = inr ymin /\ array_max (data azi_) = inr ymax /\
    array_min (data rng_) = inr xmin /\ array_max (data rng_) = inr xmax /\
    mapM_result (load_block self)
      (select_blocks (trans_blocks_extents self) ymin ymax xmin xmax)
      = inr loaded /\
    ((loaded = [] /\ M = np_full (shape azi_) noindex)
     \/ (loaded <> [] /\
         exists matrix,
           np_take (map idx (concat (map data loaded)))
             (map Z.of_nat
                (map (tree_query (map (fun p => (azi p, rng p))
                                      (concat (map data loaded))))
                     (zip (data azi_) (data rng_)))) = inr matrix /\
           M = mk_ndarray (shape azi_) matrix)).
Proof.
  intros HM.
  assert (shape azi_ = shape rng_) as Hshape.
  { unfold calc_intf_ll2ra_matrix, assert_ in HM.
    destruct (shape_eqb _ _) eqn:E; [by apply shape_eqb_true | discriminate]. }
  split; [exact Hshape |].
  pose proof HM as HM'. unfold calc_intf_ll2ra_matrix, assert_ in HM'.
  rewrite Hshape, shape_eqb_refl in HM'.
  destruct (array_min (data azi_)) as [|ymin] eqn:Hymin; [discriminate |].
  destruct (array_max (data azi_)) as [|ymax] eqn:Hymax; [discriminate |].
  destruct (array_min (data rng_)) as [|xmin] eqn:Hxmin; [discriminate |].
  destruct (array_max (data rng_)) as [|xmax] eqn:Hxmax; [discriminate |].
  cbn [mbind result_bind] in HM'.
  destruct (mapM_result (load_block self) _) as [|loaded] eqn:Hloaded;
    [discriminate |].
  clear HM'.
  rewrite (calc_intf_ll2ra_matrix_unfold self azi_ rng_ ymin ymax xmin xmax loaded)
    in HM by done.
  exists ymin, ymax, xmin, xmax, loaded.
  do 4 (split; [reflexivity |]). split; [exact Hloaded |].
  clear Hloaded. destruct loaded as [|b loaded'].
  - left. simpl in HM. injection HM as <-. done.
  - right. split; [done |]. cbn [length Nat.eqb] in HM.
    destruct (np_take _ _) as [|matrix]; [discriminate |].
    cbn [mbind result_bind mret result_ret] in HM. injection HM as <-.
    by exists matrix.
Qed.

Lemma np_getitem_elem {A} (l : list A) i a :
  np_getitem l i = inr a -> a ∈ l.
Proof.
  unfold np_getitem. destruct (_ && _); [| discriminate].
  destruct (l !! _) as [a'|] eqn:Hl; [| discriminate].
  intros [= <-]. apply list_elem_of_lookup. eauto.
Qed.

Lemma np_take_elem {A} (l : list A) inds out v :
  np_take l inds = inr out -> v ∈ out -> v ∈ l.
Proof.
  unfold np_take. intros Hout Hv. apply mapM_result_Forall2 in Hout.
  apply list_elem_of_lookup in Hv as [k Hk].
  destruct (Forall2_lookup_r _ _ _ _ _ Hout Hk) as (i & _ & Hi).
  by apply np_getitem_elem in Hi.
Qed.

Lemma loaded_listed self blocks loaded b :
  (forall e, e ∈ blocks -> e ∈ trans_blocks_extents self) ->
  mapM_result (load_block self) blocks = inr loaded ->
  b ∈ loaded ->
  exists e, e ∈ blocks /\ load_block self e = inr b.
Proof.
  intros Hsub Hloaded Hb. apply mapM_result_Forall2 in Hloaded.
  apply list_elem_of_lookup in Hb as [i Hi].
  destruct (Forall2_lookup_r _ _ _ _ _ Hloaded Hi) as (e & He & Hload).
  exists e. split; [apply list_elem_of_lookup; eauto | exact Hload].
Qed.

(** X7. Whenever [calc_intf_ll2ra_matrix] returns, the result has the shape
    of the chunk, and as many cells as the shape says if the arguments do. *)
Theorem calc_intf_ll2ra_matrix_shape self azi_ rng_ M :
  calc_intf_ll2ra_matrix self azi_ rng_ = inr M ->
  shape M = shape azi_ /\
  (well_shaped azi_ -> well_shaped rng_ -> well_shaped M).
Proof.
  intros HM.
  apply calc_intf_ll2ra_matrix_inv in HM
    as (Hshape & ymin & ymax & xmin & xmax & loaded & _ & _ & _ & _ & _ & Hcase).
  destruct Hcase as [[_ ->] | (_ & matrix & Htake & ->)].
  - split; [reflexivity |]. intros _ _. unfold well_shaped. simpl.
    by rewrite length_replicate.
  - split; [reflexivity |]. unfold well_shaped. simpl. intros Hwa Hwr.
    unfold np_take in Htake. apply mapM_result_Forall2 in Htake.
    rewrite <- (Forall2_length _ _ _ Htake), !length_map, length_zip.
    rewrite Hshape in *. lia.
Qed.

Lemma calc_intf_ll2ra_matrix_shape_witness :
  shape (mk_ndarray (2, 2)%nat [0; 0; 0; 0]) = shape Scene.chunk_azi /\
  (well_shaped Scene.chunk_azi -> well_shaped Scene.chunk_rng ->
   well_shaped (mk_ndarray (2, 2)%nat [0; 0; 0; 0])).
Proof.
  apply (calc_intf_ll2ra_matrix_shape Scene.self Scene.chunk_azi Scene.chunk_rng).
  vm_compute. reflexivity.
Defined.

(** X8. Every cell of a chunk that [calc_intf_ll2ra_matrix] returns holds
    [noindex] or the [idx] of a point of a block that the table of extents
    lists: no index is made up. *)
Theorem calc_intf_ll2ra_matrix_provenance self azi_ rng_ M v :
  calc_intf_ll2ra_matrix self azi_ rng_ = inr M ->
  v ∈ data M ->
  v = noindex \/ exists p, listed self p /\ v = idx p.
Proof.
  intros HM Hv.
  apply calc_intf_ll2ra_matrix_inv in HM
    as (_ & ymin & ymax & xmin & xmax & loaded & _ & _ & _ & _ & Hloaded & Hcase).
  destruct Hcase as [[_ ->] | (_ & matrix & Htake & ->)].
  - left. simpl in Hv. by apply elem_of_replicate in Hv as [-> _].
  - right. simpl in Hv.
    pose proof (np_take_elem _ _ _ _ Htake Hv) as Hin.
    apply list_elem_of_fmap in Hin as (p & -> & Hp).
    exists p. split; [| reflexivity].
    apply elem_of_concat in Hp as (l & Hl & Hpl).
    apply list_elem_of_fmap in Hl as (b & -> & Hb).
    destruct (loaded_listed self _ loaded b
                (fun e He => proj1 (proj1 (elem_of_select_blocks _ _ _ _ _ e) He))
                Hloaded Hb) as (e & He & Hload).
    apply elem_of_select_blocks in He as [He _].
    by exists e, b.
Qed.

Lemma calc_intf_ll2ra_matrix_provenance_witness :
  0 = noindex \/ exists p, listed Scene.self p /\ 0 = idx p.
Proof.
  apply (calc_intf_ll2ra_matrix_provenance Scene.self Scene.chunk_azi
           Scene.chunk_rng (mk_ndarray (2, 2)%nat [0; 0; 0; 0]) 0).
  - vm_compute. reflexivity.
  - simpl. by left.
Defined.

(** ** The margin of the block selection *)








(** ** The chunks of the footprint *)

Lemma sum_list_append l k : sum_list (l ++ k) = (sum_list l + sum_list k)%nat.
Proof. induction l as [|a l IH]; simpl; [reflexivity | rewrite IH; lia]. Qed.

Lemma sum_regular_chunks size n :
  (0 < size)%nat -> sum_list (regular_chunks size n) = n.
Proof.
  intros Hsize. unfold regular_chunks.
  destruct (n =? 0)%nat eqn:Hn; [apply Nat.eqb_eq in Hn; by subst |].
  rewrite sum_list_append, sum_list_replicate.
  pose proof (Nat.div_mod_eq n size) as Hdm.
  destruct (n mod size =? 0)%nat eqn:Hm; simpl.
  - apply Nat.eqb_eq in Hm. lia.
  - lia.
Qed.

Lemma regular_chunks_bound size n c :
  (0 < size)%nat -> (0 < n)%nat -> c ∈ regular_chunks size n ->
  (0 < c <= size)%nat.
Proof.
  intros Hsize Hn. unfold regular_chunks.
  destruct (n =? 0)%nat eqn:Hn0; [apply Nat.eqb_eq in Hn0; lia |].
  intros Hc. apply elem_of_app in Hc as [Hc | Hc].
  - apply elem_of_replicate in Hc as [-> _]. lia.
  - destruct (n mod size =? 0)%nat eqn:Hm; [by apply elem_of_nil in Hc |].
    apply list_elem_of_singleton in Hc as ->. apply Nat.eqb_neq in Hm.
    pose proof (Nat.mod_upper_bound n size). lia.
Qed.

Lemma concat_split_chunks {A} sizes (l : list A) :
  (length l <= sum_list sizes)%nat -> concat (split_chunks sizes l) = l.
Proof.
  revert l. induction sizes as [|s sizes IH]; intros l Hlen; simpl in *.
  - destruct l; [reflexivity | simpl in Hlen; lia].
  - rewrite IH by (rewrite length_drop; lia). apply take_drop.
Qed.

Lemma split_chunks_lengths {A} sizes (l : list A) i piece :
  sum_list sizes = length l ->
  split_chunks sizes l !! i = Some piece ->
  sizes !! i = Some (length piece).
Proof.
  revert l i. induction sizes as [|s sizes IH]; intros l i Hsum Hi; simpl in *;
    [by destruct i |].
  destruct i as [|i]; simpl in *.
  - injection Hi as <-. rewrite length_take. f_equal. lia.
  - apply (IH (drop s l)); [rewrite length_drop; lia | exact Hi].
Qed.

(** X11. The matrix that [intf_ll2ra_matrix] builds has one block for each
    pair of a row chunk and a column chunk of the footprint, computed by
    [calc_intf_ll2ra_matrix] on the coordinates of that chunk; the chunks
    hold at most [chunksize] coordinates each and, put end to end, give back
    the rows and the columns of the footprint: every cell lies in exactly
    one block. *)
Theorem ll2ra_matrix_blocks self g M :
  (0 < chunksize self)%nat ->
  ll2ra_matrix self g = inr M ->
  let ypieces :=
    split_chunks (regular_chunks (chunksize self) (length (grid_y g))) (grid_y g) in
  let xpieces :=
    split_chunks (regular_chunks (chunksize self) (length (grid_x g))) (grid_x g) in
  concat ypieces = grid_y g /\ concat xpieces = grid_x g /\
  (forall yc, yc ∈ ypieces -> (length yc <= chunksize self)%nat) /\
  (forall xc, xc ∈ xpieces -> (length xc <= chunksize self)%nat) /\
  forall iy ix,
    block_at (lm_blocks M) iy ix
    = (yc ← ypieces !! iy; xc ← xpieces !! ix;
       Some (calc_intf_ll2ra_matrix self (azis_block yc xc) (rngs_block yc xc))).
Proof.
  intros Hcs HM ypieces xpieces.
  assert (forall l : list Q, forall piece,
            piece ∈ split_chunks (regular_chunks (chunksize self) (length l)) l ->
            (length piece <= chunksize self)%nat) as Hbound.
  { intros l piece Hp. apply list_elem_of_lookup in Hp as [i Hi].
    apply split_chunks_lengths in Hi; [| by apply sum_regular_chunks].
    destruct (Nat.eq_dec (length l) 0%nat) as [H0 | Hpos].
    - rewrite H0 in Hi. unfold regular_chunks in Hi. simpl in Hi.
      destruct i; simpl in Hi; [injection Hi as <-; lia | discriminate].
    - assert (length piece ∈ regular_chunks (chunksize self) (length l)) as Hin
        by (apply list_elem_of_lookup; eauto).
      apply regular_chunks_bound in Hin; lia. }
  split; [apply concat_split_chunks; by rewrite sum_regular_chunks |].
  split; [apply concat_split_chunks; by rewrite sum_regular_chunks |].
  split; [apply Hbound |]. split; [apply Hbound |].
  intros iy ix.
  unfold ll2ra_matrix, assert_ in HM.
  destruct (bool_decide _ && bool_decide _); [| discriminate].
  destruct (bool_decide _); [| discriminate].
  injection HM as <-. cbn [lm_blocks].
  unfold block_at. rewrite map_lookup. fold ypieces.
  destruct (ypieces !! iy) as [yc|]; [| reflexivity]. cbn.
  rewrite map_lookup. fold xpieces.
  by destruct (xpieces !! ix).
Qed.

Lemma ll2ra_matrix_blocks_witness :
  concat (split_chunks (regular_chunks 2 4) Scene.coords) = Scene.coords /\
  concat (split_chunks (regular_chunks 2 4) Scene.coords) = Scene.coords /\
  (forall yc, yc ∈ split_chunks (regular_chunks 2 4) Scene.coords ->
              (length yc <= 2)%nat) /\
  (forall xc, xc ∈ split_chunks (regular_chunks 2 4) Scene.coords ->
              (length xc <= 2)%nat) /\
  forall iy ix,
    block_at (lm_blocks Scene.matrix_ra) iy ix
    = (yc ← split_chunks (regular_chunks 2 4) Scene.coords !! iy;
       xc ← split_chunks (regular_chunks 2 4) Scene.coords !! ix;
       Some (calc_intf_ll2ra_matrix Scene.self
               (azis_block yc xc) (rngs_block yc xc))).
Proof.
  apply (ll2ra_matrix_blocks Scene.self Scene.intf_grid Scene.matrix_ra).
  - simpl. lia.
  - vm_compute. reflexivity.
Defined.

(** ** The box a chunk is searched with *)

Lemma array_min_total l : l <> [] -> exists m, array_min l = inr m.
Proof. destruct l; [done | by eexists]. Qed.

Lemma array_max_total l : l <> [] -> exists m, array_max l = inr m.
Proof. destruct l; [done | by eexists]. Qed.

Lemma array_min_same_elements l l' m m' :
  (forall x, x ∈ l <-> x ∈ l') ->
  array_min l = inr m -> array_min l' = inr m' -> (m == m')%Q.
Proof.
  intros Hsame Hm Hm'.
  apply array_min_spec in Hm as [Hin Hle].
  apply array_min_spec in Hm' as [Hin' Hle'].
  apply Qle_antisym; [apply Hle, Hsame, Hin' | apply Hle', Hsame, Hin].
Qed.

Lemma array_max_same_elements l l' m m' :
  (forall x, x ∈ l <-> x ∈ l') ->
  array_max l = inr m -> array_max l' = inr m' -> (m == m')%Q.
Proof.
  intros Hsame Hm Hm'.
  apply array_max_spec in Hm as [Hin Hle].
  apply array_max_spec in Hm' as [Hin' Hle'].
  apply Qle_antisym; [apply Hle', Hsame, Hin | apply Hle, Hsame, Hin'].
Qed.

Lemma elem_of_azis_block yc xc x :
  xc <> [] -> x ∈ data (azis_block yc xc) <-> x ∈ yc.
Proof.
  intros Hxc. unfold azis_block. cbn [data]. rewrite elem_of_concat. split.
  - intros (l & Hl & Hx). apply list_elem_of_fmap in Hl as (a & -> & Ha).
    by apply elem_of_replicate in Hx as [-> _].
  - intros Hx. exists (replicate (length xc) x). split.
    + apply list_elem_of_fmap. by exists x.
    + apply elem_of_replicate. split; [reflexivity |]. by destruct xc.
Qed.

Lemma elem_of_rngs_block yc xc x :
  yc <> [] -> x ∈ data (rngs_block yc xc) <-> x ∈ xc.
Proof.
  intros Hyc. unfold rngs_block. cbn [data]. rewrite elem_of_concat. split.
  - intros (l & Hl & Hx). by apply list_elem_of_fmap in Hl as (a & -> & Ha).
  - intros Hx. exists xc. split; [| exact Hx].
    destruct yc as [|y yc]; [done |].
    apply list_elem_of_fmap. exists y. split; [reflexivity | by left].
Qed.

Lemma select_blocks_Qeq extents ymin ymax xmin xmax ymin' ymax' xmin' xmax' :
  (ymin == ymin')%Q -> (ymax == ymax')%Q ->
  (xmin == xmin')%Q -> (xmax == xmax')%Q ->
  select_blocks extents ymin ymax xmin xmax
  = select_blocks extents ymin' ymax' xmin' xmax'.
Proof.
  intros E1 E2 E3 E4. unfold select_blocks. apply filter_ext. intros e.
  unfold ymask, xmask, fsub, fadd.
  assert (ymin - 1 == ymin' - 1)%Q as F1 by (rewrite E1; reflexivity).
  assert (ymax + 1 == ymax' + 1)%Q as F2 by (rewrite E2; reflexivity).
  assert (xmin - 1 == xmin' - 1)%Q as F3 by (rewrite E3; reflexivity).
  assert (xmax + 1 == xmax' + 1)%Q as F4 by (rewrite E4; reflexivity).
  by rewrite (round64_comp _ _ F1), (round64_comp _ _ F2),
       (round64_comp _ _ F3), (round64_comp _ _ F4).
Qed.

(** X10. The box that a chunk of more than no cell is searched with is the
    box of its coordinates: the least and greatest azimuth of its rows, the
    least and greatest range of its columns; the blocks selected for the
    chunk are those selected for that box. *)
Theorem chunk_bounding_box extents yc xc ymin ymax xmin xmax :
  array_min yc = inr ymin -> array_max yc = inr ymax ->
  array_min xc = inr xmin -> array_max xc = inr xmax ->
  exists ymin' ymax' xmin' xmax',
    array_min (data (azis_block yc xc)) = inr ymin' /\
    array_max (data (azis_block yc xc)) = inr ymax' /\
    array_min (data (rngs_block yc xc)) = inr xmin' /\
    array_max (data (rngs_block yc xc)) = inr xmax' /\
    (ymin' == ymin)%Q /\ (ymax' == ymax)%Q /\
    (xmin' == xmin)%Q /\ (xmax' == xmax)%Q /\
    select_blocks extents ymin' ymax' xmin' xmax'
    = select_blocks extents ymin ymax xmin xmax.
Proof.
  intros Hymin Hymax Hxmin Hxmax.
  assert (yc <> []) as Hyc by (intros ->; discriminate).
  assert (xc <> []) as Hxc by (intros ->; discriminate).
  assert (data (azis_block yc xc) <> []) as Ha.
  { destruct yc as [|y yc']; [done |]. intros E.
    assert (y ∈ data (azis_block (y :: yc') xc)) as Hy
      by (apply elem_of_azis_block; [done | by left]).
    rewrite E in Hy. by apply elem_of_nil in Hy. }
  assert (data (rngs_block yc xc) <> []) as Hr.
  { destruct xc as [|x xc']; [done |]. intros E.
    assert (x ∈ data (rngs_block yc (x :: xc'))) as Hx
      by (apply elem_of_rngs_block; [done | by left]).
    rewrite E in Hx. by apply elem_of_nil in Hx. }
  destruct (array_min_total _ Ha) as [ymin' Hymin'].
  destruct (array_max_total _ Ha) as [ymax' Hymax'].
  destruct (array_min_total _ Hr) as [xmin' Hxmin'].
  destruct (array_max_total _ Hr) as [xmax' Hxmax'].
  pose proof (array_min_same_elements _ _ _ _
                (fun x => elem_of_azis_block yc xc x Hxc) Hymin' Hymin) as E1.
  pose proof (array_max_same_elements _ _ _ _
                (fun x => elem_of_azis_block yc xc x Hxc) Hymax' Hymax) as E2.
  pose proof (array_min_same_elements _ _ _ _
                (fun x => elem_of_rngs_block yc xc x Hyc) Hxmin' Hxmin) as E3.
  pose proof (array_max_same_elements _ _ _ _
                (fun x => elem_of_rngs_block yc xc x Hyc) Hxmax' Hxmax) as E4.
  exists ymin', ymax', xmin', xmax'.
  repeat (split; [assumption |]). by apply select_blocks_Qeq.
Qed.

Lemma chunk_bounding_box_witness :
  exists ymin' ymax' xmin' xmax',
    array_min (data Scene.chunk_azi) = inr ymin' /\
    array_max (data Scene.chunk_azi) = inr ymax' /\
    array_min (data Scene.chunk_rng) = inr xmin' /\
    array_max (data Scene.chunk_rng) = inr xmax' /\
    (ymin' == 0)%Q /\ (ymax' == 1)%Q /\ (xmin' == 0)%Q /\ (xmax' == 1)%Q /\
    select_blocks Scene.extents ymin' ymax' xmin' xmax'
    = select_blocks Scene.extents 0 1 0 1.
Proof.
  apply (chunk_bounding_box Scene.extents (Scene.arange 0 2) (Scene.arange 0 2));
    vm_compute; reflexivity.
Defined.

(** ** Resampling: gathers that go through, gathers that raise *)

Lemma np_getitem_nonneg {A} (l : list A) i a :
  0 <= i -> np_getitem l i = inr a -> l !! Z.to_nat i = Some a.
Proof.
  intros Hi. unfold np_getitem.
  destruct (i <? 0) eqn:Hneg; [apply Z.ltb_lt in Hneg; lia |].
  destruct (_ && _); [| discriminate].
  destruct (l !! Z.to_nat i); [by intros [= <-] | discriminate].
Qed.

Lemma ll2ra_inv matrix_ll2ra grid out :
  ll2ra matrix_ll2ra grid = inr out ->
  shape out = shape matrix_ll2ra /\
  Forall2 (fun m v => np_getitem (data grid) m = inr v)
          (data matrix_ll2ra) (data out).
Proof.
  unfold ll2ra, np_take.
  destruct (mapM_result _ _) as [|picked] eqn:Hp; [discriminate |].
  intros [= <-]. split; [reflexivity |]. by apply mapM_result_Forall2.
Qed.

Lemma ra2ll_inv matrix_ra2ll grid out :
  ra2ll matrix_ra2ll grid = inr out ->
  shape out = shape matrix_ra2ll /\
  forall k m,
    data matrix_ra2ll !! k = Some m ->
    exists v,
      np_getitem (data grid) (if negb (m =? noindex) then m else 0) = inr v /\
      data out !! k = Some (if negb (m =? noindex) then v else FNaN).
Proof.
  unfold ra2ll, np_take.
  destruct (mapM_result _ _) as [|picked] eqn:Hp; [discriminate |].
  intros [= <-]. split; [reflexivity |]. apply mapM_result_Forall2 in Hp.
  intros k m Hk. cbn [data].
  assert (map (fun m => if negb (m =? noindex) then m else 0)
              (data matrix_ra2ll) !! k
          = Some (if negb (m =? noindex) then m else 0)) as Hvk
    by (by rewrite map_lookup, Hk).
  destruct (Forall2_lookup_l _ _ _ _ _ Hp Hvk) as (v & Hv & Hget).
  exists v. split; [exact Hget |].
  by rewrite lookup_zip_with, Hk, Hv.
Qed.

(** X12. The gather [ll2ra(grid)] that [intf_ll2ra] applies to the input:
    on a matrix all of whose cells are positions of the flattened grid it
    returns an array shaped like the matrix whose every cell is the value of
    the flattened grid at the position the matrix holds. *)
Theorem ll2ra_gathers matrix_ll2ra grid :
  (forall m, m ∈ data matrix_ll2ra -> 0 <= m < Z.of_nat (length (data grid))) ->
  exists out,
    ll2ra matrix_ll2ra grid = inr out /\
    shape out = shape matrix_ll2ra /\
    length (data out) = length (data matrix_ll2ra) /\
    forall k m,
      data matrix_ll2ra !! k = Some m ->
      is_Some (data out !! k) /\ data out !! k = data grid !! Z.to_nat m.
Proof.
  intros Hvalid.
  destruct (mapM_result_total (np_getitem (data grid)) (data matrix_ll2ra))
    as [picked Hpicked].
  { intros m Hm.
    destruct (np_getitem_in_range (data grid) m (Hvalid m Hm)) as (a & _ & Ha).
    eauto. }
  exists (mk_ndarray (shape matrix_ll2ra) picked).
  unfold ll2ra, np_take. rewrite Hpicked.
  cbn [mbind result_bind mret result_ret].
  apply mapM_result_Forall2 in Hpicked.
  split; [reflexivity |]. split; [reflexivity |]. cbn [data].
  split; [symmetry; by eapply Forall2_length |].
  intros k m Hk.
  destruct (Forall2_lookup_l _ _ _ _ _ Hpicked Hk) as (v & Hv & Hget).
  assert (m ∈ data matrix_ll2ra) as Hm by (apply list_elem_of_lookup; eauto).
  apply np_getitem_nonneg in Hget; [| by apply Hvalid].
  rewrite Hv, Hget. split; [by eexists | reflexivity].
Qed.

Lemma ll2ra_gathers_witness :
  exists out,
    ll2ra Scene.matrix_ll2ra (values Scene.geo) = inr out /\
    shape out = shape Scene.matrix_ll2ra /\
    length (data out) = length (data Scene.matrix_ll2ra) /\
    forall k m,
      data Scene.matrix_ll2ra !! k = Some m ->
      is_Some (data out !! k) /\
      data out !! k = data (values Scene.geo) !! Z.to_nat m.
Proof.
  apply (ll2ra_gathers Scene.matrix_ll2ra (values Scene.geo)).
  intros m Hm. unfold Scene.matrix_ll2ra in Hm. cbn [data] in Hm.
  repeat (apply elem_of_cons in Hm as [-> | Hm]);
    try (vm_compute; split; [discriminate | reflexivity]).
  by apply elem_of_nil in Hm.
Defined.


Lemma np_getitem_nil {A} i : np_getitem (@nil A) i = inl IndexError.
Proof. unfold np_getitem. by destruct (_ && _). Qed.

(** X13. The gather of [ra2ll] raises [IndexError] on an empty grid as soon
    as the matrix has a cell, even if every cell is [noindex] (the position
    looked up for such a cell is 0), and on any grid when a cell of the
    matrix other than [noindex] lies beyond the grid. *)
Theorem ra2ll_raises matrix_ra2ll grid :
  (data grid = [] -> data matrix_ra2ll <> [] ->
     ra2ll matrix_ra2ll grid = inl IndexError)
  /\ (forall m,
       m ∈ data matrix_ra2ll -> m <> noindex ->
       Z.of_nat (length (data grid)) <= m ->
       ra2ll matrix_ra2ll grid = inl IndexError).
Proof.
  split.
  - intros Hempty Hne. destruct (data matrix_ra2ll) as [|m rest] eqn:E; [done |].
    unfold ra2ll, np_take. rewrite E, Hempty.
    rewrite (mapM_result_raises (np_getitem []) _
               (if negb (m =? noindex) then m else 0) IndexError);
      [reflexivity | | by left | apply np_getitem_nil].
    intros y e' He'. rewrite np_getitem_nil in He'. by injection He' as <-.
  - intros m Hm Hne Hout. unfold ra2ll, np_take.
    rewrite (mapM_result_raises (np_getitem (data grid)) _ m IndexError);
      [reflexivity | | | by apply np_getitem_out].
    + intros y e'. apply np_getitem_error.
    + apply list_elem_of_fmap. exists m. split; [| exact Hm].
      apply Z.eqb_neq in Hne. by rewrite Hne.
Qed.

Lemma ra2ll_raises_witness :
  ra2ll (mk_ndarray (1, 2)%nat [noindex; noindex]) (mk_ndarray (0, 0)%nat [])
    = inl IndexError
  /\ ra2ll (mk_ndarray (1, 2)%nat [noindex; 4]) (values Scene.geo)
    = inl IndexError.
Proof.
  split.
  - apply (proj1 (ra2ll_raises (mk_ndarray (1, 2)%nat [noindex; noindex])
                    (mk_ndarray (0, 0)%nat []))); [reflexivity | discriminate].
  - apply (proj2 (ra2ll_raises (mk_ndarray (1, 2)%nat [noindex; 4])
                    (values Scene.geo)) 4).
    + cbn [data]. right. by left.
    + vm_compute. discriminate.
    + vm_compute. discriminate.
Defined.

(** X14. A matrix built by [intf_ra2ll_matrix] for a footprint is accepted
    by [ra2ll] on every grid that has one value for each cell of that
    footprint: the gather through any of its blocks returns, shaped like
    the block, with each cell missing or a value of the grid. *)
Theorem built_matrix_resamples self g interactive w b w' iy ix m grid :
  intf_ra2ll_matrix self g interactive w = (inr b, w') ->
  block_at (built b) iy ix = Some m ->
  length (data grid) = (length (grid_y g) * length (grid_x g))%nat ->
  exists out,
    ra2ll m grid = inr out /\ shape out = shape m /\
    length (data out) = length (data m) /\
    forall k v, data out !! k = Some v -> v = FNaN \/ v ∈ data grid.
Proof.
  intros Hrun Hblk Hlen.
  apply intf_ra2ll_matrix_inv in Hrun.
  assert (2 <= length (grid_y g) /\ 2 <= length (grid_x g))%nat as [Hy Hx].
  { unfold ra2ll_matrix in Hrun.
    destruct (grid_y g) as [|y0 [|y1 ys]]; try discriminate.
    destruct (grid_x g) as [|x0 [|x1 xs]]; try discriminate.
    simpl. lia. }
  apply ra2ll_matrix_inv in Hrun
    as (ymin & dy & xmin & dx & _ & _ & _ & _ & HM).
  rewrite HM, block_at_map in Hblk.
  destruct (block_at (trans_dat self) iy ix) as [blk|]; [| discriminate].
  simpl in Hblk. injection Hblk as <-.
  destruct (ra2ll_spec
              (mk_ndarray (shape blk)
                 (map (fun p =>
                    matrix_ll_cell (length (grid_x g))
                      (index_or_noindex (length (grid_y g))
                         (trans_idx (azi p) ymin dy))
                      (index_or_noindex (length (grid_x g))
                         (trans_idx (rng p) xmin dx))) (data blk)))
              grid) as (out & Hout & Hshape & Hlength & Hcells).
  { intros E. rewrite E in Hlen. simpl in Hlen. nia. }
  { intros v Hv. cbn [data] in Hv.
    apply list_elem_of_fmap in Hv as (p & -> & _).
    rewrite Hlen, Nat2Z.inj_mul, Z.mul_comm. apply matrix_ll_at_in_range. }
  exists out. split; [exact Hout |]. split; [exact Hshape |].
  split; [exact Hlength |].
  intros k v Hv.
  assert (k < length (data out))%nat as Hk by (by eapply lookup_lt_Some).
  rewrite Hlength in Hk. apply lookup_lt_is_Some_2 in Hk as [c Hc].
  specialize (Hcells k c Hc). destruct (c =? noindex).
  - left. congruence.
  - right. destruct Hcells as (v' & Hv' & Hv''). rewrite Hv in Hv''.
    injection Hv'' as <-. apply list_elem_of_lookup. eauto.
Qed.

Lemma built_matrix_resamples_witness :
  exists out,
    ra2ll (mk_ndarray (2, 2)%nat [0; 3; 12; 15]) (values Scene.ones) = inr out /\
    shape out = (2, 2)%nat /\
    length (data out) = 4%nat /\
    forall k v, data out !! k = Some v ->
                v = FNaN \/ v ∈ data (values Scene.ones).
Proof.
  apply (built_matrix_resamples Scene.self Scene.intf_grid true Scene.world
           (Pending Scene.matrix_ll) Scene.world 0 0).
  - vm_compute. reflexivity.
  - reflexivity.
  - reflexivity.
Defined.

(** X15. From geographic to radar coordinates and back: at a geographic
    cell [k] whose radar cell [r] (not [noindex]) points back at [k], the
    value that [ra2ll] returns after [ll2ra] is the value the grid had at
    [k]. *)
Theorem ll2ra_ra2ll_round_trip matrix_ll2ra matrix_ra2ll grid radar geo k r :
  ll2ra matrix_ll2ra grid = inr radar ->
  ra2ll matrix_ra2ll radar = inr geo ->
  data matrix_ra2ll !! k = Some r -> r <> noindex -> 0 <= r ->
  data matrix_ll2ra !! Z.to_nat r = Some (Z.of_nat k) ->
  is_Some (data geo !! k) /\ data geo !! k = data grid !! k.
Proof.
  intros Hradar Hgeo Hk Hne Hpos Hback.
  apply ll2ra_inv in Hradar as [_ Hradar].
  apply ra2ll_inv in Hgeo as [_ Hgeo].
  destruct (Hgeo k r Hk) as (v & Hv & Hout).
  apply Z.eqb_neq in Hne. rewrite Hne in Hv, Hout. cbn [negb] in Hv, Hout.
  apply np_getitem_nonneg in Hv; [| exact Hpos].
  destruct (Forall2_lookup_l _ _ _ _ _ Hradar Hback) as (v' & Hv' & Hget).
  rewrite Hv in Hv'. injection Hv' as <-.
  apply np_getitem_nonneg in Hget; [| lia].
  rewrite Nat2Z.id in Hget.
  rewrite Hout, Hget. split; [by eexists | reflexivity].
Qed.

Lemma ll2ra_ra2ll_round_trip_witness :
  is_Some (data (mk_ndarray (2, 2)%nat [FVal 5; FVal 6; FVal 7; FVal 8]) !! 1%nat)
  /\ data (mk_ndarray (2, 2)%nat [FVal 5; FVal 6; FVal 7; FVal 8]) !! 1%nat
     = data (values Scene.geo) !! 1%nat.
Proof.
  apply (ll2ra_ra2ll_round_trip Scene.matrix_ll2ra
           (mk_ndarray (2, 2)%nat [0; 3; 12; 15]) (values Scene.geo)
           (mk_ndarray (4, 4)%nat
              (map FVal [5; 5; 6; 6; 5; 5; 6; 6; 7; 7; 8; 8; 7; 7; 8; 8]%Q))
           (mk_ndarray (2, 2)%nat [FVal 5; FVal 6; FVal 7; FVal 8]) 1 3).
  - vm_compute. reflexivity.
  - vm_compute. reflexivity.
  - reflexivity.
  - vm_compute. discriminate.
  - lia.
  - reflexivity.
Defined.

(** ** The ra2ll matrix on footprints of any size *)

Lemma wrap32_flat ry rx width :
  wrap32 (wrap32 ry * width + wrap32 rx) = wrap32 (ry * width + rx).
Proof.
  unfold wrap32.
  rewrite Zplus_mod, Zmult_mod_idemp_l, Zmod_mod, <- Zplus_mod. reflexivity.
Qed.

(** X2. On a footprint of any size, a point whose rounded row or column
    falls off the footprint gets [noindex]; a point that falls on it gets
    [noindex] or its flat index [ry*width + rx] taken modulo 2^32. *)
Theorem intf_ra2ll_matrix_cell_any_size
    self g interactive w ymin dy xmin dx b w' iy ix blk k p ry rx :
  array_min (grid_y g) = inr ymin -> diff0 (grid_y g) = inr dy ->
  array_min (grid_x g) = inr xmin -> diff0 (grid_x g) = inr dx ->
  intf_ra2ll_matrix self g interactive w = (inr b, w') ->
  block_at (trans_dat self) iy ix = Some blk -> data blk !! k = Some p ->
  trans_idx (azi p) ymin dy = Some ry -> trans_idx (rng p) xmin dx = Some rx ->
  exists out v,
    block_at (built b) iy ix = Some out /\ data out !! k = Some v /\
    (on_grid (length (grid_y g)) (length (grid_x g)) ry rx = false ->
     v = noindex) /\
    (on_grid (length (grid_y g)) (length (grid_x g)) ry rx = true ->
     v = noindex \/ v = (ry * Z.of_nat (length (grid_x g)) + rx) mod 2 ^ 32).
Proof.
  intros Hymin Hdy Hxmin Hdx Hrun Hblk Hp Hry Hrx.
  apply intf_ra2ll_matrix_inv in Hrun.
  apply ra2ll_matrix_inv in Hrun
    as (ymin' & dy' & xmin' & dx' & E1 & E2 & E3 & E4 & HM).
  rewrite Hymin in E1. rewrite Hdy in E2. rewrite Hxmin in E3. rewrite Hdx in E4.
  injection E1 as <-. injection E2 as <-. injection E3 as <-. injection E4 as <-.
  rewrite HM, block_at_map, Hblk. simpl.
  eexists. eexists. split; [reflexivity |]. simpl.
  rewrite map_lookup, Hp. simpl. split; [reflexivity |].
  rewrite Hry, Hrx.
  change (matrix_ll_cell (length (grid_x g))
            (index_or_noindex (length (grid_y g)) (Some ry))
            (index_or_noindex (length (grid_x g)) (Some rx)))
    with (matrix_ll_at (length (grid_y g)) (length (grid_x g)) (Some ry) (Some rx)).
  split.
  - apply matrix_ll_at_off_grid.
  - intros Hon. rewrite (matrix_ll_at_on_grid _ _ _ _ Hon).
    destruct (_ || _); [by left | right]. apply wrap32_flat.
Qed.

Lemma intf_ra2ll_matrix_cell_any_size_witness :
  exists out v,
    block_at (built (Pending [[mk_ndarray (1, 1)%nat [0]]])) 0 0 = Some out /\
    data out !! 0%nat = Some v /\
    (on_grid (length (grid_y Scene.big_grid)) (length (grid_x Scene.big_grid))
             65536 0 = false -> v = noindex) /\
    (on_grid (length (grid_y Scene.big_grid)) (length (grid_x Scene.big_grid))
             65536 0 = true ->
     v = noindex
     \/ v = (65536 * Z.of_nat (length (grid_x Scene.big_grid)) + 0) mod 2 ^ 32).
Proof.
  apply (intf_ra2ll_matrix_cell_any_size Scene.big_self Scene.big_grid true
           Scene.world 0 1 0 1 (Pending [[mk_ndarray (1, 1)%nat [0]]])
           Scene.world 0 0 (mk_ndarray (1, 1)%nat [Scene.pt 65536 0 0]) 0
           (Scene.pt 65536 0 0) 65536 0);
    vm_compute; reflexivity.
Defined.

(** ** The footprint and the order of the pairs *)

(** A cell of the footprint is false exactly when some layer holds zero
    there and none holds a negative value. *)
Lemma footprint_cell_false stack fp c b :
  geocode_intf_grid stack = inr fp -> fp !! c = Some b ->
  (b = false <->
   (exists l q, l ∈ stack /\ l !! c = Some (FVal q) /\ (q == 0)%Q) /\
   (forall l q, l ∈ stack -> l !! c = Some (FVal q) -> (0 <= q)%Q)).
Proof.
  destruct stack as [|layer layers]; [discriminate |].
  unfold geocode_intf_grid, min_pair. cbn [mbind result_bind mret result_ret].
  intros [= <-] Hb. apply list_lookup_fmap_Some in Hb as (a & -> & Ha).
  assert (column_min (layer :: layers) c a) as Hcol.
  { apply (foldl_nanmin_column layers layer [layer]); [| exact Ha].
    intros c' a' Ha'. destruct a' as [|m]; simpl.
    - intros l v Hl Hv. apply list_elem_of_singleton in Hl as ->. congruence.
    - split; [exists layer; split; [by left | done] |].
      intros l q Hl Hq. apply list_elem_of_singleton in Hl as ->.
      rewrite Ha' in Hq. injection Hq as ->. apply Qle_refl. }
  destruct a as [|m]; simpl in *.
  - split; [discriminate |].
    intros [(l & q & Hl & Hq & _) _]. by specialize (Hcol l _ Hl Hq).
  - destruct Hcol as [(l0 & Hl0 & Hm) Hmin]. split.
    + intros Hz. apply negb_false_iff, Qeq_bool_iff in Hz. split.
      * by exists l0, m.
      * intros l q Hl Hq. specialize (Hmin l q Hl Hq). lra.
    + intros [(l & q & Hl & Hq & Hq0) Hpos].
      apply negb_false_iff, Qeq_bool_iff.
      specialize (Hmin l q Hl Hq). specialize (Hpos l0 m Hl0 Hm). lra.
Qed.

Lemma geocode_intf_grid_length stack fp n :
  (forall l, l ∈ stack -> length l = n) ->
  geocode_intf_grid stack = inr fp -> length fp = n.
Proof.
  intros Hlen. destruct stack as [|layer layers]; [discriminate |].
  unfold geocode_intf_grid, min_pair. cbn [mbind result_bind mret result_ret].
  intros [= <-]. rewrite length_map. apply foldl_nanmin_length.
  - apply Hlen. by left.
  - intros l Hl. apply Hlen. by right.
Qed.

(** X16. The footprint does not depend on the order of the pairs: two
    stacks of layers of one size that hold the same layers in another order
    give the same footprint (or both raise, when there is no pair). *)
Theorem geocode_intf_grid_order stack stack' n :
  stack ≡ₚ stack' ->
  (forall l, l ∈ stack -> length l = n) ->
  geocode_intf_grid stack = geocode_intf_grid stack'.
Proof.
  intros Hperm Hlen.
  assert (forall l, l ∈ stack' -> length l = n) as Hlen'
    by (intros l Hl; apply Hlen; by rewrite Hperm).
  destruct stack as [|layer layers].
  { apply Permutation_nil_l in Hperm. by subst. }
  destruct stack' as [|layer' layers'].
  { by apply Permutation_nil_r in Hperm. }
  destruct (geocode_intf_grid (layer :: layers)) as [e|fp] eqn:Hfp;
    [discriminate |].
  destruct (geocode_intf_grid (layer' :: layers')) as [e|fp'] eqn:Hfp';
    [discriminate |].
  f_equal. apply list_eq. intros c.
  pose proof (geocode_intf_grid_length _ _ _ Hlen Hfp) as Hn.
  pose proof (geocode_intf_grid_length _ _ _ Hlen' Hfp') as Hn'.
  destruct (fp !! c) as [b|] eqn:Hb.
  - assert (c < length fp')%nat as Hc
      by (rewrite Hn', <- Hn; by eapply lookup_lt_Some).
    apply lookup_lt_is_Some_2 in Hc as [b' Hb']. rewrite Hb'. f_equal.
    pose proof (footprint_cell_false _ _ _ _ Hfp Hb) as Hi.
    pose proof (footprint_cell_false _ _ _ _ Hfp' Hb') as Hi'.
    assert (b = false <-> b' = false) as Hiff.
    { rewrite Hi, Hi'. split.
      - intros [(l & q & Hl & Hq) Hpos]. split.
        + exists l, q. by rewrite <- Hperm.
        + intros l' q' Hl'. apply Hpos. by rewrite Hperm.
      - intros [(l & q & Hl & Hq) Hpos]. split.
        + exists l, q. by rewrite Hperm.
        + intros l' q' Hl'. apply Hpos. by rewrite <- Hperm. }
    destruct b, b'; try reflexivity.
    + by apply (proj2 Hiff).
    + symmetry. by apply (proj1 Hiff).
  - symmetry. apply lookup_ge_None. rewrite Hn', <- Hn.
    by apply lookup_ge_None.
Qed.

Lemma geocode_intf_grid_order_witness :
  geocode_intf_grid [[FNaN; FVal 0; FVal 2]; [FNaN; FVal 1; FVal (-1)]]
  = geocode_intf_grid [[FNaN; FVal 1; FVal (-1)]; [FNaN; FVal 0; FVal 2]].
Proof.
  apply (geocode_intf_grid_order _ _ 3).
  - apply perm_swap.
  - intros l Hl.
    repeat (apply elem_of_cons in Hl as [-> | Hl]); [reflexivity .. |].
    by apply elem_of_nil in Hl.
Defined.
